(** * storaj: the Store / Collection persistence and identity model

    A shallow embedding of [src/store.ts] and the properties of its
    collections, its codec and its persistence, with the validation of
    the earlier prototype of [src/main.ts].

    Conventions of the embedding.
    - A JavaScript object is a finite map from property names to values
      ([gmap string JSValue]): property order is not observable by any
      code of the store, and two objects with the same properties are
      the same record "field for field".
    - An ECMAScript [Map] is an insertion-ordered association list
      ([JSMap.t]); its keys here are always of type [Index].
    - A JSON text is represented by its syntax tree ([JSON]); the
      characters of the text are not modelled. [JSON_stringify] and
      [JSON_parse] go between values and texts.
    - Mutation is explicit state passing: a method returns the state of
      its receiver after the call together with its completion
      ([Result]); a [Throw] carries the state at the point of the throw.
    - [async] methods are run to completion ([await] is sequencing).
    - [dirname] of the [path] module is a parameter; the [fs] module is
      a world of directories and files ([Fs.World]) that records the
      calls made to it.
    [query] hands the records to [executeQuery] of [./query] and
    [aggregate] is empty; neither is part of the embedding. *)

From stdpp Require Import gmap strings list fin_maps.
From Stdlib Require Import ZArith Ascii.

Set Warnings "-register-all".
Open Scope string_scope.
Open Scope list_scope.

(** ** JavaScript values *)

(** Numbers: the finite ones are represented by integers (the identifiers
    of the data model are "a string or an integer"); the non-finite ones
    are kept apart because [typeof] still answers ["number"] for them
    while a JSON text cannot carry them. *)
Inductive JSNumber :=
| Int (z : Z)
| NaN
| Infinity (negative : bool).

Inductive JSValue :=
| VUndefined
| VNull
| VBool (b : bool)
| VNum (n : JSNumber)
| VStr (s : string)
| VArr (elements : list JSValue)
| VObj (props : gmap string JSValue).

(** The properties of a plain object. *)
Abbreviation Obj := (gmap string JSValue).

#[global] Instance JSNumber_eq_dec : EqDecision JSNumber.
Proof. solve_decision. Defined.

(** [typeof v] *)
Definition typeof (v : JSValue) : string :=
  match v with
  | VUndefined => "undefined"
  | VNull => "object"
  | VBool _ => "boolean"
  | VNum _ => "number"
  | VStr _ => "string"
  | VArr _ => "object"
  | VObj _ => "object"
  end.

(** [o[prop]] on an object: a missing property reads as [undefined]. *)
Definition getProp (o : Obj) (prop : string) : JSValue :=
  default VUndefined (o !! prop).

(** [v === undefined] *)
Definition is_undefined (v : JSValue) : bool :=
  match v with VUndefined => true | _ => false end.

(** [v === ""] *)
Definition is_empty_string (v : JSValue) : bool :=
  match v with VStr "" => true | _ => false end.

(** [!v] *)
Definition falsy (v : JSValue) : bool :=
  match v with
  | VUndefined | VNull | VBool false | VNum (Int 0) | VNum NaN | VStr "" => true
  | _ => false
  end.

(** [{ ...base, ...o }]: the properties of [o] are written over [base]. *)
Definition spread_over (base o : Obj) : Obj := o ∪ base.

(** ** JSON texts *)

Inductive JSON :=
| JNull
| JBool (b : bool)
| JNumber (z : Z)
| JString (s : string)
| JArray (elements : list JSON)
| JObject (members : gmap string JSON).

(** [JSON.stringify]: [None] stands for the result [undefined]. A
    property whose value is [undefined] is left out of an object, an
    [undefined] array element and a non-finite number are written
    [null]. *)
Fixpoint JSON_stringify (v : JSValue) : option JSON :=
  match v with
  | VUndefined => None
  | VNull => Some JNull
  | VBool b => Some (JBool b)
  | VNum (Int z) => Some (JNumber z)
  | VNum _ => Some JNull
  | VStr s => Some (JString s)
  | VArr l => Some (JArray (map (λ x, default JNull (JSON_stringify x)) l))
  | VObj m => Some (JObject (omap JSON_stringify m))
  end.

(** The value a JSON syntax tree denotes. *)
Fixpoint JSON_value (j : JSON) : JSValue :=
  match j with
  | JNull => VNull
  | JBool b => VBool b
  | JNumber z => VNum (Int z)
  | JString s => VStr s
  | JArray l => VArr (map JSON_value l)
  | JObject m => VObj (JSON_value <$> m)
  end.


(** A value that [JSON.stringify] writes without loss: no [undefined] and
    no non-finite number at any depth. *)
Fixpoint json_safe (v : JSValue) : bool :=
  match v with
  | VUndefined => false
  | VNum (Int _) => true
  | VNum _ => false
  | VArr l => forallb json_safe l
  | VObj m => map_fold (λ _ x acc, json_safe x && acc) true m
  | _ => true
  end.

(** A measure of values, for inductions through arrays and objects. *)
Fixpoint JSValue_size (v : JSValue) : nat :=
  match v with
  | VArr l => S (foldr (λ x acc, JSValue_size x + acc) 0 l)
  | VObj m => S (map_fold (λ _ x acc, JSValue_size x + acc) 0 m)
  | _ => 1
  end.

(** ** Completions *)

(** The errors of the store are [Error] objects told apart by the prefix
    of their message; the others are raised by the runtime. *)
Inductive Error :=
| InsertionError
| InvalidItemError
| InvalidSchema
| TypeError
| SyntaxError
| ENOENT
| EEXIST.

Inductive Result (A : Type) :=
| Ok (a : A)
| Throw (e : Error).
Arguments Ok {A} a.
Arguments Throw {A} e.

Definition Result_map {A B : Type} (f : A → B) (r : Result A) : Result B :=
  match r with
  | Ok a => Ok (f a)
  | Throw e => Throw e
  end.

#[global] Instance Error_eq_dec : EqDecision Error.
Proof. solve_decision. Defined.

(** ** ECMAScript [Map] *)

Module JSMap.
Section JSMap.
Context {K V : Type} `{EqDecision K}.

Definition t := list (K * V).

Definition empty : t := [].

Fixpoint get (k : K) (m : t) : option V :=
  match m with
  | [] => None
  | (k', v) :: m' => if decide (k = k') then Some v else get k m'
  end.

Definition has (k : K) (m : t) : bool :=
  match get k m with Some _ => true | None => false end.

(** [set] keeps the position of a key that is already present and
    appends a new one. *)
Fixpoint set (k : K) (v : V) (m : t) : t :=
  match m with
  | [] => [(k, v)]
  | (k', v') :: m' =>
      if decide (k = k') then (k, v) :: m' else (k', v') :: set k v m'
  end.

Definition keys (m : t) : list K := m.*1.
Definition values (m : t) : list V := m.*2.
Definition size (m : t) : nat := length m.
End JSMap.
Arguments t : clear implicits.
End JSMap.

(** ** The file system *)

(** A string read from or written to a file: a JSON text, or characters
    that are not one. *)
Inductive Text :=
| JsonText (j : JSON)
| NotJson.

(** [JSON.parse] *)
Definition JSON_parse (t : Text) : Result JSValue :=
  match t with
  | JsonText j => Ok (JSON_value j)
  | NotJson => Throw SyntaxError
  end.

(** A world of directories and files, named by their paths, with the
    calls that were made to the [fs] module, most recent first. *)
Module Fs.
Inductive Call :=
| Exists (path : string)
| Read (path : string)
| Mkdir (path : string)
| Write (path : string) (data : Text).

Record World := {
  dirs : gset string;
  files : gmap string Text;
  calls : list Call;
}.

Definition called (c : Call) (w : World) : World :=
  {| dirs := dirs w; files := files w; calls := c :: calls w |}.

Definition existsSync (path : string) (w : World) : World * bool :=
  (called (Exists path) w,
   bool_decide (path ∈ dirs w) || bool_decide (is_Some (files w !! path))).

Definition readFileSync (path : string) (w : World) : World * Result Text :=
  (called (Read path) w,
   match files w !! path with
   | Some data => Ok data
   | None => Throw ENOENT
   end).

Section WithDirname.
(** [dirname] of the [path] module. *)
Variable dirname : string → string.

(** [mkdirSync(path)], not recursive: the parent has to exist. *)
Definition mkdirSync (path : string) (w : World) : World * Result unit :=
  let w := called (Mkdir path) w in
  if bool_decide (path ∈ dirs w) || bool_decide (is_Some (files w !! path))
  then (w, Throw EEXIST)
  else if bool_decide (dirname path ∈ dirs w)
  then ({| dirs := {[path]} ∪ dirs w; files := files w; calls := calls w |},
        Ok tt)
  else (w, Throw ENOENT).

(** [writeFile(path, data)]: the file is created or truncated, and holds
    [data] afterwards. The directory of the file has to exist. *)
Definition writeFile (path : string) (data : Text) (w : World)
  : World * Result unit :=
  let w := called (Write path data) w in
  if bool_decide (dirname path ∈ dirs w)
  then ({| dirs := dirs w; files := <[path := data]> (files w);
           calls := calls w |}, Ok tt)
  else (w, Throw ENOENT).
End WithDirname.
End Fs.

(** ** Receivers *)

(** What the body of [Store.persist] reads of its receiver [this]: the
    property [fPath] and the method [serialize] ([None] when [this] has
    no such method). A method read off an object, as in [this.persist],
    is the function without its receiver; the receiver is supplied by
    the call. *)
Record This := {
  this_fPath : JSValue;
  this_serialize : option JSON;
}.

Abbreviation PersistFn := (This → Fs.World → Fs.World * Result unit).

(** ** Identifiers *)

(** Modelled from the spec: the type [Index] of [./types], a file that
    is not among the sources. An Identifier is "a value that is either a
    string or an integer": [type Index = string | number], the two types
    [_validateInsert] lets through. *)
Inductive Index :=
| IStr (s : string)
| INum (n : JSNumber).

#[global] Instance Index_eq_dec : EqDecision Index.
Proof. solve_decision. Defined.

Definition Index_value (i : Index) : JSValue :=
  match i with
  | IStr s => VStr s
  | INum n => VNum n
  end.

Definition as_index (v : JSValue) : option Index :=
  match v with
  | VStr s => Some (IStr s)
  | VNum n => Some (INum n)
  | _ => None
  end.

(** [itemHasProp(item, prop, type)] *)
Definition itemHasProp (item : Obj) (prop : string) (type : string) : bool :=
  let value := getProp item prop in
  if is_undefined value then false
  else
    let propType := typeof value in
    if negb (String.eqb propType type) then false
    else true.

(** ** Collection *)

Module Collection.
Record t := {
  name : string;
  _items : JSMap.t Index Obj;
  _onUpdate : PersistFn;
}.

(** [new Collection(name, onUpdate)] *)
Definition new (name : string) (onUpdate : PersistFn) : t :=
  {| name := name; _items := JSMap.empty; _onUpdate := onUpdate |}.

(** A collection as the receiver of [persist]: it has neither an
    [fPath] nor a [serialize]. *)
Definition as_this (c : t) : This :=
  {| this_fPath := VUndefined; this_serialize := None |}.

(** [this._items.has(id)] and [this._items.set(id, item)] with the
    identifier read off a record. The keys of the map are of type
    [Index]; an identifier of another type never reaches the map,
    [_validateInsert] refuses it before. *)
Definition _items_has (id : JSValue) (c : t) : bool :=
  match as_index id with
  | Some k => JSMap.has k (_items c)
  | None => false
  end.

Definition _items_set (id : JSValue) (item : Obj) (c : t) : t :=
  match as_index id with
  | Some k =>
      {| name := name c; _items := JSMap.set k item (_items c);
         _onUpdate := _onUpdate c |}
  | None => c
  end.

Definition _validateInsert (item : Obj) (c : t) : Result unit :=
  let idIsValid :=
    itemHasProp item "_id" "string" || itemHasProp item "_id" "number" in
  if negb idIsValid then Throw InsertionError
  else if _items_has (getProp item "_id") c then Throw InsertionError
  else Ok tt.

(** [uuid] is what [randomUUID()] answers if it is called. *)
Definition _putInMap (object : Obj) (id : JSValue) (uuid : string) (c : t)
  : t * Result unit :=
  let id := if is_undefined id then VStr uuid else id in
  let item := spread_over {[ "_id" := id ]} object in
  match _validateInsert item c with
  | Throw e => (c, Throw e)
  | Ok _ => (_items_set (getProp item "_id") item c, Ok tt)
  end.

(** [await this._onUpdate()] is a method call on the collection: the
    hook runs with the collection as its receiver (store.ts, line 59). *)
Definition insert (object : Obj) (id : JSValue) (uuid : string)
    (c : t) (w : Fs.World) : t * Fs.World * Result unit :=
  match _putInMap object id uuid c with
  | (c, Throw e) => (c, w, Throw e)
  | (c, Ok _) =>
      let '(w, r) := _onUpdate c (as_this c) w in
      (c, w, r)
  end.

Definition insertSync (object : Obj) (id : JSValue) (uuid : string) (c : t)
  : t * Result unit :=
  _putInMap object id uuid c.

Definition get (id : Index) (c : t) : option Obj :=
  JSMap.get id (_items c).

Definition _insertNoSave (item : Obj) (c : t) : t * Result unit :=
  match _validateInsert item c with
  | Throw e => (c, Throw e)
  | Ok _ => (_items_set (getProp item "_id") item c, Ok tt)
  end.

Definition all (c : t) : list Obj := JSMap.values (_items c).

Definition count (c : t) : nat := JSMap.size (_items c).

(** The state of a collection that its methods maintain: the keys of the
    map are distinct, and a record is filed under its own [_id]. *)
Definition valid (c : t) : bool :=
  bool_decide (NoDup (JSMap.keys (_items c)))
  && forallb
       (λ '(k, item), bool_decide (as_index (getProp item "_id") = Some k))
       (_items c).

(** The records a flat array of tagged records can carry: a named,
    non-empty collection whose identifiers are not the empty string and
    whose records have no field [_collection] of their own and only
    fields that [JSON.stringify] writes without loss. *)
Definition portable (c : t) : bool :=
  negb (String.eqb (name c) "")
  && negb (bool_decide (_items c = []))
  && forallb
       (λ '(k, item),
          negb (bool_decide (k = IStr ""))
          && match item !! "_collection" with None => true | Some _ => false end
          && json_safe (VObj item))
       (_items c).
End Collection.

(** A collection with one more record at the end of its map. *)
Definition filed (k : Index) (item : Obj) (c : Collection.t) : Collection.t :=
  {| Collection.name := Collection.name c;
     Collection._items := Collection._items c ++ [(k, item)];
     Collection._onUpdate := Collection._onUpdate c |}.

(** The three ways of inserting into a collection. *)
Inductive Insertion :=
| ViaInsert (object : Obj) (id : JSValue) (uuid : string)
| ViaInsertSync (object : Obj) (id : JSValue) (uuid : string)
| ViaInsertNoSave (item : Obj).

(** The record an insertion files. *)
Definition record_of (i : Insertion) : Obj :=
  match i with
  | ViaInsert object id uuid | ViaInsertSync object id uuid =>
      spread_over {[ "_id" := if is_undefined id then VStr uuid else id ]}
        object
  | ViaInsertNoSave item => item
  end.

(** The identifier an insertion supplies, and the fields it supplies
    beside it. *)
Definition supplied_id (i : Insertion) : JSValue :=
  match i with
  | ViaInsert _ id _ | ViaInsertSync _ id _ => id
  | ViaInsertNoSave item => getProp item "_id"
  end.

Definition supplied_fields (i : Insertion) : Obj :=
  match i with
  | ViaInsert object _ _ | ViaInsertSync object _ _ => object
  | ViaInsertNoSave item => delete "_id" item
  end.

Definition perform (i : Insertion) (c : Collection.t) (w : Fs.World)
  : Collection.t * Fs.World * Result unit :=
  match i with
  | ViaInsert object id uuid => Collection.insert object id uuid c w
  | ViaInsertSync object id uuid =>
      let '(c, r) := Collection.insertSync object id uuid c in (c, w, r)
  | ViaInsertNoSave item =>
      let '(c, r) := Collection._insertNoSave item c in (c, w, r)
  end.

(** A sequence of insertions, each of them caught by the caller if it
    throws. *)
Fixpoint perform_all (l : list Insertion) (c : Collection.t) (w : Fs.World)
  : Collection.t * Fs.World :=
  match l with
  | [] => (c, w)
  | i :: l => let '(c, w, _) := perform i c w in perform_all l c w
  end.

(** ** The codec: validation of tagged records *)

(** The named properties of a value as property reads see them: reading
    a property of [null] or [undefined] throws, and a primitive or an
    array carries neither [_id] nor [_collection]. *)
Definition props_of (item : JSValue) : Result Obj :=
  match item with
  | VObj o => Ok o
  | VUndefined | VNull => Throw TypeError
  | _ => Ok ∅
  end.

Definition validateSerializedItem (item : JSValue) : Result unit :=
  match props_of item with
  | Throw e => Throw e
  | Ok item =>
      if is_empty_string (getProp item "_id") then Throw InvalidItemError
      else if is_empty_string (getProp item "_collection")
      then Throw InvalidItemError
      else
        let isValid :=
          (itemHasProp item "_id" "string" || itemHasProp item "_id" "number")
          && itemHasProp item "_collection" "string" in
        if negb isValid then Throw InvalidItemError
        else Ok tt
  end.

(** [array.forEach(f)] where [f] mutates a state and may throw: the first
    throw ends the loop. *)
Fixpoint forEach {S : Type} (f : JSValue → S → S * Result unit)
    (array : list JSValue) (s : S) : S * Result unit :=
  match array with
  | [] => (s, Ok tt)
  | item :: array =>
      match f item s with
      | (s, Throw e) => (s, Throw e)
      | (s, Ok _) => forEach f array s
      end
  end.

(** ** Store *)

Module Store.
Record t := {
  fPath : string;
  _collections : JSMap.t string Collection.t;
}.

(** [rest] of [({ _id, ...rest })], tagged:
    [{ _id, _collection: collection.name, ...rest }] *)
Definition tagged (collection : Collection.t) (item : Obj) : Obj :=
  let _id := getProp item "_id" in
  let rest := delete "_id" item in
  spread_over
    (<["_collection" := VStr (Collection.name collection)]> {[ "_id" := _id ]})
    rest.

Definition serialize (s : t) : JSON :=
  let items :=
    fold_left
      (λ items collection,
         let serializedItems :=
           map (tagged collection) (Collection.all collection) in
         items ++ serializedItems)
      (JSMap.values (_collections s)) [] in
  (* an array is never stringified to [undefined] *)
  default JNull (JSON_stringify (VArr (VObj <$> items))).

(** The tagged records of a store, collection after collection. *)
Definition tagged_records (s : t) : list Obj :=
  collection ← JSMap.values (_collections s);
  map (tagged collection) (Collection.all collection).

(** The collection [name] of the store holds a record under [id]. *)
Definition has_record (name : string) (id : Index) (s : t) : Prop :=
  ∃ c, JSMap.get name (_collections s) = Some c
       ∧ is_Some (JSMap.get id (Collection._items c)).

(** The record that the collection [name] of the store holds under
    [id]: [store.collections(name).get(id)] on a collection that is
    there. *)
Definition record (name : string) (id : Index) (s : t) : option Obj :=
  c ← JSMap.get name (_collections s); Collection.get id c.

(** The number of records of all the collections. *)
Definition total (s : t) : nat :=
  sum_list (Collection.count <$> JSMap.values (_collections s)).

(** The same collections under another path. *)
Definition at_path (fPath : string) (s : t) : t :=
  {| fPath := fPath; _collections := _collections s |}.

(** A store as the receiver of [persist]. *)
Definition as_this (s : t) : This :=
  {| this_fPath := VStr (fPath s); this_serialize := Some (serialize s) |}.

Section WithDirname.
Variable dirname : string → string.

(** [async persist()], a function of its receiver [this]: [this.fPath]
    is read off whatever object the method is called on. *)
Definition persist (this : This) (w : Fs.World) : Fs.World * Result unit :=
  if falsy (this_fPath this) then (w, Ok tt)
  else
    match this_fPath this with
    | VStr fPath =>
        let folderName := dirname fPath in
        let '(w, found) := Fs.existsSync folderName w in
        let '(w, made) :=
          if negb found then Fs.mkdirSync dirname folderName w
          else (w, Ok tt) in
        match made with
        | Throw e => (w, Throw e)
        | Ok _ =>
            match this_serialize this with
            | Some data => Fs.writeFile dirname fPath (JsonText data) w
            | None => (w, Throw TypeError)
            end
        end
    | _ => (w, Throw TypeError) (* [dirname] refuses what is not a string *)
    end.

(** [collections(collection)]: the store after the call and the
    collection it answers. A new collection is given [this.persist], the
    method as it is, not bound to the store (store.ts, line 138). *)
Definition collections (collection : string) (s : t) : t * Collection.t :=
  match JSMap.get collection (_collections s) with
  | None =>
      let ref := Collection.new collection persist in
      ({| fPath := fPath s;
          _collections := JSMap.set collection ref (_collections s) |}, ref)
  | Some ref => (s, ref)
  end.

(** The collection answered by [collections] is the one the map holds: a
    mutation through the reference is a mutation of the entry. *)
Definition mutated (collection : string) (c : Collection.t) (s : t) : t :=
  {| fPath := fPath s;
     _collections := JSMap.set collection c (_collections s) |}.

Definition hasCollection (collection : string) (s : t) : bool :=
  JSMap.has collection (_collections s).

Definition collNames (s : t) : list string := JSMap.keys (_collections s).

(** [{ _id, ...data }] of [const { _id, _collection, ...data } = item] *)
Definition untagged (item : Obj) : Obj :=
  let _id := getProp item "_id" in
  let data := delete "_id" (delete "_collection" item) in
  spread_over {[ "_id" := _id ]} data.

(** The body of the loops of [initStore] and [storeFromObjects]. *)
Definition load (item : JSValue) (s : t) : t * Result unit :=
  match validateSerializedItem item with
  | Throw e => (s, Throw e)
  | Ok _ =>
      match props_of item with
      | Throw e => (s, Throw e)
      | Ok item =>
          match getProp item "_collection" with
          | VStr name =>
              let '(s, collection) := collections name s in
              let '(collection, r) :=
                Collection._insertNoSave (untagged item) collection in
              (mutated name collection s, r)
          | _ => (s, Throw TypeError)
          end
      end
  end.

Definition initStore (s : t) (w : Fs.World) : t * Fs.World * Result unit :=
  if String.eqb (fPath s) "" then (s, w, Ok tt)
  else
    let '(w, found) := Fs.existsSync (dirname (fPath s)) w in
    if negb found then (s, w, Ok tt)
    else
      let '(w, text) := Fs.readFileSync (fPath s) w in
      match text with
      | Throw e => (s, w, Throw e)
      | Ok text =>
          match JSON_parse text with
          | Throw e => (s, w, Throw e)
          | Ok (VArr fileData) =>
              let '(s, r) := forEach load fileData s in (s, w, r)
          | Ok _ => (s, w, Throw InvalidSchema)
          end
      end.

(** The state of a store that its methods maintain: the names are
    distinct, a collection is registered under its own name, and every
    collection is [Collection.valid]. *)
Definition valid (s : t) : bool :=
  bool_decide (NoDup (JSMap.keys (_collections s)))
  && forallb
       (λ '(n, c),
          bool_decide (Collection.name c = n) && Collection.valid c)
       (_collections s).

Definition portable (s : t) : bool :=
  forallb Collection.portable (JSMap.values (_collections s)).

(** The collections of a store are made by [collections], with the
    persistence hook it passes. *)
Definition hooked (s : t) : Prop :=
  Forall (λ c, Collection._onUpdate c = persist)
    (JSMap.values (_collections s)).

(** [new Store(fPath)]: a constructor that throws answers no store. *)
Definition new (fPath : string) (w : Fs.World) : Fs.World * Result t :=
  let s := {| fPath := fPath; _collections := JSMap.empty |} in
  match initStore s w with
  | (s, w, Ok _) => (w, Ok s)
  | (_, w, Throw e) => (w, Throw e)
  end.
End WithDirname.
End Store.

Section Codec.
Variable dirname : string → string.

Definition storeFromObjects (storedData : JSValue) (storePath : string)
    (w : Fs.World) : Fs.World * Result Store.t :=
  match Store.new dirname storePath w with
  | (w, Throw e) => (w, Throw e)
  | (w, Ok store) =>
      match storedData with
      | VArr storedData =>
          match forEach (Store.load dirname) storedData store with
          | (store, Ok _) => (w, Ok store)
          | (_, Throw e) => (w, Throw e)
          end
      | _ => (w, Throw InvalidSchema)
      end
  end.

Definition storeFromFile (storePath : string) (w : Fs.World)
  : Fs.World * Result Store.t :=
  let '(w, text) := Fs.readFileSync storePath w in
  match text with
  | Throw e => (w, Throw e)
  | Ok text =>
      match JSON_parse text with
      | Throw e => (w, Throw e)
      | Ok storedData => storeFromObjects storedData storePath w
      end
  end.
End Codec.

(** ** The earlier prototype ([src/main.ts]) *)

(** The validation of the prototype, whose records are keyed by
    [collection], [id] and [data]. *)
Module Legacy.
(** [itemHasProp(item, prop, type)] *)
Definition itemHasProp (item : Obj) (prop : string) (type : string) : bool :=
  let value := getProp item prop in
  if is_undefined value then false
  else
    let propType := typeof value in
    if negb (String.eqb propType type) then false
    else true.

End Legacy.

(** ** What the round trip needs of a record and of a collection *)

Definition entry_portable (e : Index * Obj) : Prop :=
  as_index (getProp e.2 "_id") = Some e.1
  ∧ e.1 ≠ IStr ""
  ∧ e.2 !! "_collection" = None
  ∧ json_safe (VObj e.2) = true.

(** The collection named [n] that a store made, with the records [I]. *)
Definition collection_of (dirname : string → string) (n : string)
    (I : JSMap.t Index Obj) : Collection.t :=
  {| Collection.name := n; Collection._items := I;
     Collection._onUpdate := Store.persist dirname |}.

Definition collection_portable (dirname : string → string)
    (e : string * Collection.t) : Prop :=
  e.2 = collection_of dirname e.1 (Collection._items e.2)
  ∧ e.1 ≠ ""
  ∧ Collection._items e.2 ≠ []
  ∧ NoDup (JSMap.keys (Collection._items e.2))
  ∧ Forall entry_portable (Collection._items e.2).

(** ** An instance of [dirname] *)

(** [path.posix.dirname]: the path up to its last separator that is
    followed by a name, ["."] without one, the root for a name under the
    root. The scan runs from the end of the path to its second
    character. *)
Fixpoint dirname_scan (matchedSlash : bool) (reversed : list Ascii.ascii)
  : option (list Ascii.ascii) :=
  match reversed with
  | [] => None
  | c :: reversed =>
      if Ascii.eqb c "/"%char
      then if matchedSlash then dirname_scan true reversed else Some reversed
      else dirname_scan false reversed
  end.

Definition dirname_posix (path : string) : string :=
  match String.list_ascii_of_string path with
  | [] => "."
  | c0 :: rest =>
      let hasRoot := Ascii.eqb c0 "/"%char in
      match dirname_scan true (rev rest) with
      | None => if hasRoot then "/" else "."
      | Some [] => if hasRoot then "//" else String.string_of_list_ascii [c0]
      | Some before => String.string_of_list_ascii (c0 :: rev before)
      end
  end.

(** ** A sample world *)

(** A working directory with a directory [db] and no file. *)
Definition sample_world : Fs.World :=
  {| Fs.dirs := {[ "."; "db" ]}; Fs.files := ∅; Fs.calls := [] |}.

(** The collection [users] of a store, holding the record
    [{ _id: 1, name: "a" }]. *)
Definition sample_users : Collection.t :=
  filed (INum (Int 1)) {[ "_id" := VNum (Int 1); "name" := VStr "a" ]}
    (Collection.new "users" (Store.persist dirname_posix)).

(** A store with the path [db/data.json] and the collection [users]. *)
Definition sample_store : Store.t :=
  {| Store.fPath := "db/data.json";
     Store._collections := [("users", sample_users)] |}.

(** * Properties *)

(** ** Paths *)

Example dirname_posix_file : dirname_posix "db/data.json" = "db".
Proof. reflexivity. Qed.

Example dirname_posix_name : dirname_posix "db" = ".".
Proof. reflexivity. Qed.

Example dirname_posix_root : dirname_posix "/tmp" = "/".
Proof. reflexivity. Qed.

(** ** Maps *)

Section JSMap_facts.
Context {K V : Type} `{EqDecision K}.
Implicit Types (k : K) (v : V) (m : JSMap.t K V).

Lemma JSMap_get_None k m : JSMap.get k m = None ↔ k ∉ JSMap.keys m.
Proof.
  unfold JSMap.keys. induction m as [|[k' v'] m IH]; simpl.
  - split; [intros _; apply not_elem_of_nil | done].
  - rewrite not_elem_of_cons. destruct (decide (k = k')) as [->|Hne]; [|tauto].
    split; [done | by intros [? _]].
Qed.

Lemma JSMap_has_get k m : JSMap.has k m = true ↔ is_Some (JSMap.get k m).
Proof.
  unfold JSMap.has. destruct (JSMap.get k m) as [v|].
  - split; [by exists v | done].
  - split; [done | by intros [? ?]].
Qed.

Lemma JSMap_has_false k m : JSMap.has k m = false ↔ JSMap.get k m = None.
Proof. unfold JSMap.has. by destruct (JSMap.get k m). Qed.

Lemma JSMap_set_fresh k v m :
  JSMap.get k m = None → JSMap.set k v m = m ++ [(k, v)].
Proof.
  induction m as [|[k' v'] m IH]; simpl; [done|].
  destruct (decide (k = k')); [done|]. intros Hm. by rewrite IH.
Qed.

Lemma JSMap_get_set_eq k v m : JSMap.get k (JSMap.set k v m) = Some v.
Proof.
  induction m as [|[k' v'] m IH]; simpl.
  - by rewrite decide_True.
  - destruct (decide (k = k')) as [->|Hne]; simpl.
    + by rewrite decide_True.
    + by rewrite decide_False.
Qed.

Lemma JSMap_get_set_ne k k' v m :
  k ≠ k' → JSMap.get k' (JSMap.set k v m) = JSMap.get k' m.
Proof.
  intros Hne. induction m as [|[k0 v0] m IH]; simpl.
  - by rewrite decide_False.
  - destruct (decide (k = k0)) as [->|Hne0]; simpl.
    + by rewrite !decide_False.
    + destruct (decide (k' = k0)); [done | apply IH].
Qed.

Lemma JSMap_get_app k m1 m2 :
  JSMap.get k (m1 ++ m2)
  = match JSMap.get k m1 with Some v => Some v | None => JSMap.get k m2 end.
Proof.
  induction m1 as [|[k' v'] m1 IH]; simpl; [done|].
  by destruct (decide (k = k')).
Qed.

Lemma JSMap_get_elem_of k v m : JSMap.get k m = Some v → (k, v) ∈ m.
Proof.
  induction m as [|[k' v'] m IH]; simpl; [done|].
  destruct (decide (k = k')) as [->|].
  - intros [= ->]. apply list_elem_of_here.
  - intros Hm. apply list_elem_of_further. by apply IH.
Qed.


Lemma JSMap_keys_set_fresh k v m :
  JSMap.get k m = None → NoDup (JSMap.keys m) →
  NoDup (JSMap.keys (JSMap.set k v m)).
Proof.
  intros Hm Hnd. rewrite JSMap_set_fresh by done.
  unfold JSMap.keys in *. rewrite fmap_app. simpl.
  apply NoDup_app. split_and!; [done| |apply NoDup_singleton].
  intros x Hx ->%list_elem_of_singleton.
  by apply JSMap_get_None in Hm.
Qed.
End JSMap_facts.

(** ** JSON *)

Lemma JSValue_size_elem (v : JSValue) (l : list JSValue) :
  v ∈ l → JSValue_size v < JSValue_size (VArr l).
Proof.
  simpl. induction 1 as [v l|v v' l _ IH]; simpl; lia.
Qed.

Lemma JSValue_size_prop (m : Obj) (k : string) (v : JSValue) :
  m !! k = Some v → JSValue_size v < JSValue_size (VObj m).
Proof.
  intros Hk. simpl.
  rewrite (map_fold_delete_L _ _ k v m); [lia| |done].
  intros. lia.
Qed.

(** Induction on values, through the elements of arrays and the
    properties of objects. *)
Lemma JSValue_nested_ind (P : JSValue → Prop) :
  P VUndefined → P VNull → (∀ b, P (VBool b)) → (∀ n, P (VNum n)) →
  (∀ s, P (VStr s)) →
  (∀ l, Forall P l → P (VArr l)) →
  (∀ m : Obj, map_Forall (λ _, P) m → P (VObj m)) →
  ∀ v, P v.
Proof.
  intros Hu Hn Hb Hnum Hs Harr Hobj v.
  induction (Nat.lt_wf_0_projected JSValue_size v) as [v _ IH].
  destruct v as [| |b|n|s|l|m]; auto.
  - apply Harr, Forall_forall. intros x Hx. by apply IH, JSValue_size_elem.
  - apply Hobj. intros k x Hk. by apply IH, (JSValue_size_prop m k).
Qed.

Lemma json_safe_obj (m : Obj) :
  json_safe (VObj m) = true ↔ map_Forall (λ _ v, json_safe v = true) m.
Proof.
  simpl. rewrite map_fold_foldr, map_Forall_to_list.
  induction (map_to_list m) as [|[k v] l IH]; simpl.
  - split; [constructor | done].
  - rewrite andb_true_iff, Forall_cons, IH. done.
Qed.

Lemma json_safe_arr (l : list JSValue) :
  json_safe (VArr l) = true ↔ Forall (λ v, json_safe v = true) l.
Proof.
  simpl. rewrite forallb_forall, Forall_forall.
  split; intros H x Hx; apply H; by apply list_elem_of_In.
Qed.

(** Parsing what [JSON.stringify] wrote gives the value back, for a
    value that is [json_safe]. *)
Lemma JSON_stringify_value (v : JSValue) :
  json_safe v = true → JSON_value <$> JSON_stringify v = Some v.
Proof.
  induction v as [| |b|n|s|l IH|m IH] using JSValue_nested_ind;
    try done.
  - by destruct n.
  - intros Hsafe%json_safe_arr. simpl. do 2 f_equal.
    induction IH as [|x l Hx _ IHl]; [done|].
    apply Forall_cons in Hsafe as [Hsx Hsl]. simpl. f_equal; [|by apply IHl].
    specialize (Hx Hsx). by destruct (JSON_stringify x); simplify_eq/=.
  - intros Hsafe%json_safe_obj. simpl. do 2 f_equal.
    apply map_eq. intros k. rewrite lookup_fmap, lookup_omap.
    destruct (m !! k) as [x|] eqn:Hk; [|done]. simpl.
    apply (IH k x Hk), (Hsafe k x Hk).
Qed.

(** ** Insertion into a collection *)

Lemma idIsValid_as_index (item : Obj) :
  itemHasProp item "_id" "string" || itemHasProp item "_id" "number" = true
  ↔ is_Some (as_index (getProp item "_id")).
Proof.
  unfold itemHasProp. destruct (getProp item "_id"); simpl;
    (split; [try done; by eexists | try done; by intros [? ?]]).
Qed.

(** The two outcomes of [_validateInsert]. *)
Lemma _validateInsert_Ok (item : Obj) (c : Collection.t) :
  Collection._validateInsert item c = Ok tt
  ↔ ∃ k, as_index (getProp item "_id") = Some k
         ∧ JSMap.get k (Collection._items c) = None.
Proof.
  unfold Collection._validateInsert, Collection._items_has.
  pose proof (idIsValid_as_index item) as Hid.
  destruct (itemHasProp item "_id" "string" || itemHasProp item "_id" "number");
    simpl.
  - destruct (proj1 Hid eq_refl) as [k Hk]. rewrite Hk.
    destruct (JSMap.has k (Collection._items c)) eqn:Hhas.
    + split; [done|]. intros (k' & [= <-] & Hget).
      apply JSMap_has_get in Hhas as [? ?]. congruence.
    + split; [|done]. intros _. exists k. by apply JSMap_has_false in Hhas.
  - split; [done|]. intros (k & Hk & _).
    assert (false = true); [|done]. apply Hid. by exists k.
Qed.

Lemma _validateInsert_Throw (item : Obj) (c : Collection.t) (e : Error) :
  Collection._validateInsert item c = Throw e → e = InsertionError.
Proof.
  unfold Collection._validateInsert.
  repeat case_match; congruence.
Qed.

Lemma _insertNoSave_cases (item : Obj) (c : Collection.t) :
  (∃ k, as_index (getProp item "_id") = Some k
        ∧ JSMap.get k (Collection._items c) = None
        ∧ Collection._insertNoSave item c = (filed k item c, Ok tt))
  ∨ (Collection._insertNoSave item c = (c, Throw InsertionError)
     ∧ ∀ k, as_index (getProp item "_id") = Some k →
            is_Some (JSMap.get k (Collection._items c))).
Proof.
  unfold Collection._insertNoSave.
  destruct (Collection._validateInsert item c) as [[]|e] eqn:Hv.
  - left. apply _validateInsert_Ok in Hv as (k & Hk & Hget).
    exists k. split_and!; [done..|].
    unfold Collection._items_set, filed. rewrite Hk.
    by rewrite JSMap_set_fresh.
  - right. rewrite (_validateInsert_Throw _ _ _ Hv). split; [done|].
    intros k Hk. destruct (JSMap.get k (Collection._items c)) eqn:Hget;
      [by eexists|].
    assert (Collection._validateInsert item c = Ok tt) as Hok
      by (apply _validateInsert_Ok; eauto).
    congruence.
Qed.

Lemma _putInMap_insertNoSave (object : Obj) (id : JSValue) (uuid : string)
    (c : Collection.t) :
  Collection._putInMap object id uuid c
  = Collection._insertNoSave (record_of (ViaInsertSync object id uuid)) c.
Proof. done. Qed.

(** Every insertion is the insertion of its record by [_insertNoSave],
    followed for [insert] by the call of the hook. *)
Lemma perform_cases (i : Insertion) (c : Collection.t) (w : Fs.World) :
  (∃ k, as_index (getProp (record_of i) "_id") = Some k
        ∧ JSMap.get k (Collection._items c) = None
        ∧ ∃ w' r, perform i c w = (filed k (record_of i) c, w', r)
                  ∧ (w', r) = match i with
                              | ViaInsert _ _ _ =>
                                  let c' := filed k (record_of i) c in
                                  Collection._onUpdate c'
                                    (Collection.as_this c') w
                              | _ => (w, Ok tt)
                              end)
  ∨ (perform i c w = (c, w, Throw InsertionError)
     ∧ ∀ k, as_index (getProp (record_of i) "_id") = Some k →
            is_Some (JSMap.get k (Collection._items c))).
Proof.
  destruct (_insertNoSave_cases (record_of i) c)
    as [(k & Hk & Hget & Hins)|[Hins Hdup]].
  - left. exists k. split_and!; [done..|].
    destruct i as [object id uuid|object id uuid|item]; simpl in *.
    + unfold Collection.insert. rewrite _putInMap_insertNoSave. simpl.
      rewrite Hins.
      destruct (Collection._onUpdate (filed k _ c) _ w) as [w' r] eqn:Hhook.
      by exists w', r.
    + unfold Collection.insertSync. rewrite _putInMap_insertNoSave. simpl.
      rewrite Hins. by exists w, (Ok tt).
    + rewrite Hins. by exists w, (Ok tt).
  - right. split; [|done].
    destruct i as [object id uuid|object id uuid|item]; simpl in *.
    + unfold Collection.insert. rewrite _putInMap_insertNoSave. simpl.
      by rewrite Hins.
    + unfold Collection.insertSync. rewrite _putInMap_insertNoSave. simpl.
      by rewrite Hins.
    + by rewrite Hins.
Qed.

(** ** The state a collection maintains *)

Lemma Collection_valid_spec (c : Collection.t) :
  Collection.valid c = true
  ↔ NoDup (JSMap.keys (Collection._items c))
    ∧ Forall (λ e, as_index (getProp e.2 "_id") = Some e.1)
        (Collection._items c).
Proof.
  unfold Collection.valid.
  rewrite andb_true_iff, bool_decide_eq_true, forallb_forall, Forall_forall.
  split; intros [Hnd Hid]; (split; [done|]).
  - intros [k item] Hin. apply list_elem_of_In, Hid in Hin.
    by apply bool_decide_eq_true in Hin.
  - intros [k item] Hin. apply bool_decide_eq_true.
    by apply list_elem_of_In, Hid in Hin.
Qed.

Lemma Collection_new_valid (name : string) (onUpdate : PersistFn) :
  Collection.valid (Collection.new name onUpdate) = true.
Proof. apply Collection_valid_spec. split; [apply NoDup_nil_2 | done]. Qed.

Lemma filed_valid (k : Index) (item : Obj) (c : Collection.t) :
  Collection.valid c = true →
  as_index (getProp item "_id") = Some k →
  JSMap.get k (Collection._items c) = None →
  Collection.valid (filed k item c) = true.
Proof.
  rewrite !Collection_valid_spec. intros [Hnd Hid] Hk Hget. simpl. split.
  - rewrite <-(JSMap_set_fresh k item) by done.
    by apply JSMap_keys_set_fresh.
  - apply Forall_app. split; [done|]. by apply Forall_singleton.
Qed.

Lemma perform_valid (i : Insertion) (c : Collection.t) (w : Fs.World) :
  Collection.valid c = true → Collection.valid (perform i c w).1.1 = true.
Proof.
  intros Hc.
  destruct (perform_cases i c w)
    as [(k & Hk & Hget & w' & r & -> & _)|[-> _]]; simpl; [|done].
  by apply filed_valid.
Qed.

Lemma perform_get (i : Insertion) (c : Collection.t) (w : Fs.World)
    (k : Index) (r : Obj) :
  Collection.get k c = Some r → Collection.get k (perform i c w).1.1 = Some r.
Proof.
  intros Hc.
  destruct (perform_cases i c w)
    as [(k' & Hk & Hget & w' & r' & -> & _)|[-> _]]; simpl; [|done].
  unfold Collection.get, filed in *. simpl. by rewrite JSMap_get_app, Hc.
Qed.

Lemma perform_all_valid (l : list Insertion) (c : Collection.t) (w : Fs.World) :
  Collection.valid c = true → Collection.valid (perform_all l c w).1 = true.
Proof.
  revert c w. induction l as [|i l IH]; intros c w Hc; simpl; [done|].
  pose proof (perform_valid i c w Hc) as Hi.
  destruct (perform i c w) as [[c' w'] r]. by apply IH.
Qed.

Lemma perform_all_get (l : list Insertion) (c : Collection.t) (w : Fs.World)
    (k : Index) (r : Obj) :
  Collection.get k c = Some r → Collection.get k (perform_all l c w).1 = Some r.
Proof.
  revert c w. induction l as [|i l IH]; intros c w Hc; simpl; [done|].
  pose proof (perform_get i c w k r Hc) as Hi.
  destruct (perform i c w) as [[c' w'] r']. by apply IH.
Qed.

(** In a valid collection two records at different places of the
    enumeration have different identifiers. *)
Lemma Collection_valid_unique (c : Collection.t) (p q : nat) (r1 r2 : Obj) :
  Collection.valid c = true →
  Collection.all c !! p = Some r1 → Collection.all c !! q = Some r2 →
  getProp r1 "_id" = getProp r2 "_id" → p = q.
Proof.
  intros [Hnd Hid]%Collection_valid_spec.
  unfold Collection.all, JSMap.values, JSMap.keys in *.
  intros ([k1 x1] & -> & Hp)%list_lookup_fmap_Some
         ([k2 x2] & -> & Hq)%list_lookup_fmap_Some Heq.
  rewrite Forall_lookup in Hid.
  pose proof (Hid p _ Hp) as H1. pose proof (Hid q _ Hq) as H2.
  simpl in *. rewrite Heq in H1. rewrite H1 in H2. injection H2 as ->.
  eapply NoDup_lookup; [done| |]; rewrite list_lookup_fmap.
  - by rewrite Hp.
  - by rewrite Hq.
Qed.

(** ** Validation of tagged records *)

Lemma validateSerializedItem_Ok (record : Obj) :
  validateSerializedItem (VObj record) = Ok tt
  ↔ (∃ k, as_index (getProp record "_id") = Some k ∧ k ≠ IStr "")
    ∧ ∃ name, getProp record "_collection" = VStr name ∧ name ≠ "".
Proof.
  unfold validateSerializedItem, itemHasProp. simpl.
  destruct (getProp record "_id") as [| |b|n|[|a s]|l|m];
    destruct (getProp record "_collection") as [| |b'|n'|[|a' s']|l'|m'];
    simpl; (split; [try done|try (intros [(k & Hk & Hne) (nm & Hnm & Hne')];
                               simplify_eq/=; done)]);
    intros _; (split; [eexists; split; [done|done] | eexists; split; done]).
Qed.



(** ** Claims on insertion *)

(** Called on a collection, [persist] finds no [fPath] and returns. *)
Lemma persist_on_collection (dirname : string → string) (c : Collection.t)
    (w : Fs.World) :
  Store.persist dirname (Collection.as_this c) w = (w, Ok tt).
Proof. reflexivity. Qed.

(** C2. Once a record with identifier [i] has been inserted, whatever
    insertions follow, a further insertion of a record with the same
    identifier, by [insert], [insertSync] or [_insertNoSave], fails with
    [InsertionError] and leaves the collection as it was; [get(i)] still
    answers the first record; and no two records of the collection share
    an identifier. *)
Theorem C2_second_insertion_refused (c c1 c2 : Collection.t)
    (w w1 w2 : Fs.World) (first second : Insertion) (others : list Insertion)
    (i : Index) :
  Collection.valid c = true →
  perform first c w = (c1, w1, Ok tt) →
  as_index (getProp (record_of first) "_id") = Some i →
  perform_all others c1 w1 = (c2, w2) →
  as_index (getProp (record_of second) "_id") = Some i →
  perform second c2 w2 = (c2, w2, Throw InsertionError)
  ∧ Collection.get i c2 = Some (record_of first)
  ∧ ∀ p q r1 r2,
      Collection.all c2 !! p = Some r1 → Collection.all c2 !! q = Some r2 →
      getProp r1 "_id" = getProp r2 "_id" → p = q.
Proof.
  intros Hc Hfirst Hi Hothers Hsecond.
  assert (Collection.get i c1 = Some (record_of first)) as Hget1.
  { destruct (perform_cases first c w)
      as [(k & Hk & Hget & w' & r & Hp & _)|[Hp _]]; [|congruence].
    rewrite Hp in Hfirst. simplify_eq.
    unfold Collection.get, filed. simpl.
    rewrite JSMap_get_app, Hget. simpl. by rewrite decide_True. }
  assert (Collection.get i c2 = Some (record_of first)) as Hget2.
  { pose proof (perform_all_get others c1 w1 i _ Hget1) as H.
    by rewrite Hothers in H. }
  assert (Collection.valid c2 = true) as Hc2.
  { pose proof (perform_valid first c w Hc) as H1. rewrite Hfirst in H1.
    pose proof (perform_all_valid others c1 w1 H1) as H2.
    by rewrite Hothers in H2. }
  split_and!; [|done|].
  - destruct (perform_cases second c2 w2)
      as [(k & Hk & Hget & _)|[Hp _]]; [|done].
    unfold Collection.get in Hget2. congruence.
  - intros p q r1 r2. by apply Collection_valid_unique.
Qed.

Lemma C2_second_insertion_refused_witness :
  perform (ViaInsert {[ "name" := VStr "b" ]} (VNum (Int 1)) "uuid")
    sample_users sample_world
  = (sample_users, sample_world, Throw InsertionError)
  ∧ Collection.get (INum (Int 1)) sample_users
    = Some {[ "_id" := VNum (Int 1); "name" := VStr "a" ]}.
Proof.
  pose proof (C2_second_insertion_refused
    (Collection.new "users" (Store.persist dirname_posix))
    sample_users sample_users sample_world sample_world sample_world
    (ViaInsertNoSave {[ "_id" := VNum (Int 1); "name" := VStr "a" ]})
    (ViaInsert {[ "name" := VStr "b" ]} (VNum (Int 1)) "uuid")
    [] (INum (Int 1))
    eq_refl eq_refl eq_refl eq_refl eq_refl) as (H1 & H2 & _).
  exact (conj H1 H2).
Defined.

(** C3. An insertion that fails with [InsertionError] leaves the
    collection, its map of records included, exactly as it was. *)
Theorem C3_failed_insertion_changes_nothing (dirname : string → string)
    (i : Insertion) (c c' : Collection.t) (w w' : Fs.World) :
  Collection._onUpdate c = Store.persist dirname →
  perform i c w = (c', w', Throw InsertionError) →
  c' = c ∧ Collection._items c' = Collection._items c.
Proof.
  intros Hhook Hp.
  destruct (perform_cases i c w)
    as [(k & Hk & Hget & w0 & r & Hp' & Hr)|[Hp' _]].
  - exfalso. rewrite Hp' in Hp. simplify_eq.
    destruct i; simpl in Hr; [|congruence..].
    rewrite Hhook, persist_on_collection in Hr. congruence.
  - rewrite Hp' in Hp. by simplify_eq.
Qed.

Lemma C3_failed_insertion_changes_nothing_witness :
  ∃ c', perform (ViaInsertSync {[ "name" := VStr "b" ]} (VNum (Int 1)) "uuid")
          sample_users sample_world
        = (c', sample_world, Throw InsertionError)
        ∧ c' = sample_users.
Proof.
  exists sample_users. split; [reflexivity|].
  exact (proj1 (C3_failed_insertion_changes_nothing dirname_posix
    (ViaInsertSync {[ "name" := VStr "b" ]} (VNum (Int 1)) "uuid")
    sample_users sample_users sample_world sample_world eq_refl eq_refl)).
Defined.

Lemma record_of_id (i : Insertion) :
  is_undefined (supplied_id i) = false →
  supplied_fields i !! "_id" = None →
  getProp (record_of i) "_id" = supplied_id i.
Proof.
  unfold getProp, spread_over.
  destruct i as [object id uuid|object id uuid|item]; simpl; try done;
    intros Hid Hown; rewrite Hid; unfold spread_over;
    by rewrite lookup_union_r, lookup_singleton_eq.
Qed.

(** C9, as stated, fails: the fields are spread over the identifier, so
    an [_id] among them replaces the one that was supplied. *)
Lemma C9_wrong_type_refused_counterexample :
  ¬ ∀ (i : Insertion) (c : Collection.t) (w : Fs.World),
      is_undefined (supplied_id i) = false →
      typeof (supplied_id i) ≠ "string" →
      typeof (supplied_id i) ≠ "number" →
      perform i c w = (c, w, Throw InsertionError).
Proof.
  intros H.
  specialize (H (ViaInsertSync {[ "_id" := VNum (Int 5) ]} (VBool true) "uuid")
                (Collection.new "users" (Store.persist dirname_posix))
                sample_world eq_refl).
  discriminate H; by intros [=].
Qed.

(** C9, amended. An insertion that supplies an identifier that is neither
    a string nor a number, with fields that carry no [_id] of their own,
    fails with [InsertionError], and the record is not added. *)
Theorem C9_wrong_type_refused (i : Insertion) (c : Collection.t)
    (w : Fs.World) :
  is_undefined (supplied_id i) = false →
  typeof (supplied_id i) ≠ "string" →
  typeof (supplied_id i) ≠ "number" →
  supplied_fields i !! "_id" = None →
  perform i c w = (c, w, Throw InsertionError).
Proof.
  intros Hdef Hstr Hnum Hown.
  destruct (perform_cases i c w) as [(k & Hk & _)|[Hp _]]; [|done].
  rewrite record_of_id in Hk by done.
  destruct (supplied_id i); simplify_eq/=.
Qed.

Lemma C9_wrong_type_refused_witness :
  perform (ViaInsert {[ "name" := VStr "b" ]} (VArr []) "uuid")
    sample_users sample_world
  = (sample_users, sample_world, Throw InsertionError).
Proof.
  apply (C9_wrong_type_refused
           (ViaInsert {[ "name" := VStr "b" ]} (VArr []) "uuid")).
  - reflexivity.
  - by intros [=].
  - by intros [=].
  - reflexivity.
Defined.

(** C5: the code files a record under the empty string. [insertSync]
    with the identifier [""] succeeds, [get("")] answers the record, and
    the store that holds it is written as a text that the store's own
    reader refuses. *)
Theorem C5_empty_identifier_is_filed :
  let c := Collection.new "users" (Store.persist dirname_posix) in
  let filed_c := filed (IStr "") {[ "_id" := VStr "" ]} c in
  let s := {| Store.fPath := ""; Store._collections := [("users", filed_c)] |} in
  Collection.insertSync ∅ (VStr "") "uuid" c = (filed_c, Ok tt)
  ∧ Collection.get (IStr "") filed_c = Some {[ "_id" := VStr "" ]}
  ∧ storeFromObjects dirname_posix (JSON_value (Store.serialize s)) ""
      sample_world
    = (sample_world, Throw InvalidItemError).
Proof. split_and!; reflexivity. Qed.

(** ** Persistence *)



Lemma serialize_tagged_records (s : Store.t) :
  Store.serialize s
  = JArray (map (λ o, JObject (omap JSON_stringify o))
              (Store.tagged_records s)).
Proof.
  unfold Store.serialize, Store.tagged_records.
  assert (∀ (l : list Collection.t) acc,
            fold_left
              (λ items collection,
                 items ++ map (Store.tagged collection)
                            (Collection.all collection)) l acc
            = acc ++ (collection ← l;
                      map (Store.tagged collection)
                        (Collection.all collection))) as Hfold.
  { induction l as [|c l IH]; intros acc; simpl.
    - by rewrite app_nil_r.
    - by rewrite IH, app_assoc. }
  rewrite Hfold. simpl. f_equal.
  rewrite <-list_fmap_compose. by apply list_fmap_ext.
Qed.


Lemma persist_on_store (dirname : string → string) (s : Store.t)
    (w : Fs.World) :
  Store.fPath s ≠ "" →
  Store.persist dirname (Store.as_this s) w
  = let d := dirname (Store.fPath s) in
    let text := JsonText (Store.serialize s) in
    let w1 := Fs.called (Fs.Exists d) w in
    if bool_decide (d ∈ Fs.dirs w) || bool_decide (is_Some (Fs.files w !! d))
    then Fs.writeFile dirname (Store.fPath s) text w1
    else
      match Fs.mkdirSync dirname d w1 with
      | (w2, Ok _) => Fs.writeFile dirname (Store.fPath s) text w2
      | (w2, Throw e) => (w2, Throw e)
      end.
Proof.
  intros Hpath. unfold Store.persist, Store.as_this. simpl.
  destruct (Store.fPath s) as [|a p] eqn:Hp; [done|]. simpl.
  destruct (bool_decide (dirname (String a p) ∈ Fs.dirs w)
            || bool_decide (is_Some (Fs.files w !! dirname (String a p))));
    simpl; [done|].
  by destruct (Fs.mkdirSync dirname _ _) as [w2 [[]|e]].
Qed.


Lemma sample_store_hooked : Store.hooked dirname_posix sample_store.
Proof. repeat constructor. Qed.


(** ** Construction *)

Lemma collections_at_path (dirname : string → string) (p name : string)
    (s : Store.t) :
  Store.collections dirname name (Store.at_path p s)
  = (Store.at_path p (Store.collections dirname name s).1,
     (Store.collections dirname name s).2).
Proof.
  unfold Store.collections, Store.at_path. simpl.
  by destruct (JSMap.get name (Store._collections s)).
Qed.

Lemma load_at_path (dirname : string → string) (p : string) (item : JSValue)
    (s : Store.t) :
  Store.load dirname item (Store.at_path p s)
  = (Store.at_path p (Store.load dirname item s).1,
     (Store.load dirname item s).2).
Proof.
  unfold Store.load.
  destruct (validateSerializedItem item); [|done].
  destruct (props_of item) as [o|]; [|done].
  destruct (getProp o "_collection"); try done.
  rewrite collections_at_path.
  destruct (Store.collections dirname s0 s) as [s1 c]. simpl.
  by destruct (Collection._insertNoSave _ c).
Qed.

Lemma forEach_load_at_path (dirname : string → string) (p : string)
    (items : list JSValue) (s : Store.t) :
  forEach (Store.load dirname) items (Store.at_path p s)
  = (Store.at_path p (forEach (Store.load dirname) items s).1,
     (forEach (Store.load dirname) items s).2).
Proof.
  revert s. induction items as [|item items IH]; intros s; simpl; [done|].
  rewrite load_at_path.
  destruct (Store.load dirname item s) as [s' [[]|e]]; simpl; [|done].
  apply IH.
Qed.



(** ** Loading tagged records *)

Lemma validateSerializedItem_is_obj (item : JSValue) :
  validateSerializedItem item = Ok tt → ∃ a, item = VObj a.
Proof. destruct item; try done. by eexists. Qed.

Lemma untagged_id (a : Obj) (k : Index) :
  as_index (getProp a "_id") = Some k →
  getProp (Store.untagged a) "_id" = getProp a "_id".
Proof.
  intros Hk. unfold Store.untagged, spread_over, getProp at 1.
  by rewrite lookup_union_r, lookup_singleton_eq
    by apply lookup_delete_eq.
Qed.

(** What [load] does with a valid record. *)
Lemma load_valid (dirname : string → string) (a : Obj) (s : Store.t) :
  validateSerializedItem (VObj a) = Ok tt →
  ∃ k n, as_index (getProp a "_id") = Some k ∧ k ≠ IStr ""
         ∧ getProp a "_collection" = VStr n ∧ n ≠ ""
         ∧ Store.load dirname (VObj a) s
           = (Store.mutated n
                (Collection._insertNoSave (Store.untagged a)
                   (Store.collections dirname n s).2).1
                (Store.collections dirname n s).1,
              (Collection._insertNoSave (Store.untagged a)
                 (Store.collections dirname n s).2).2).
Proof.
  intros Hv. unfold Store.load. rewrite Hv. simpl.
  apply validateSerializedItem_Ok in Hv as [(k & Hk & Hne) (n & Hn & Hne')].
  exists k, n. split_and!; [done..|]. rewrite Hn.
  destruct (Store.collections dirname n s) as [s1 c]. simpl.
  by destruct (Collection._insertNoSave _ c).
Qed.


Lemma collections_get_ne (dirname : string → string) (n n' : string)
    (s : Store.t) :
  n ≠ n' →
  JSMap.get n' (Store._collections (Store.collections dirname n s).1)
  = JSMap.get n' (Store._collections s).
Proof.
  intros Hne. unfold Store.collections.
  destruct (JSMap.get n (Store._collections s)) as [c|] eqn:Hget; simpl;
    [done|]. by apply JSMap_get_set_ne.
Qed.

Lemma collections_present (dirname : string → string) (n : string)
    (s : Store.t) (c : Collection.t) :
  JSMap.get n (Store._collections s) = Some c →
  Store.collections dirname n s = (s, c).
Proof. intros Hget. unfold Store.collections. by rewrite Hget. Qed.

Lemma _insertNoSave_keeps (item : Obj) (c : Collection.t) (k : Index) :
  is_Some (JSMap.get k (Collection._items c)) →
  is_Some (JSMap.get k (Collection._items
                          (Collection._insertNoSave item c).1)).
Proof.
  intros [r Hr].
  destruct (_insertNoSave_cases item c) as [(k' & _ & _ & ->)|[-> _]];
    simpl; [|by exists r].
  rewrite JSMap_get_app, Hr. by exists r.
Qed.

(** A record that is held stays held, whatever is loaded. *)
Lemma load_has_record (dirname : string → string) (item : JSValue)
    (s : Store.t) (n : string) (k : Index) :
  Store.has_record n k s →
  Store.has_record n k (Store.load dirname item s).1.
Proof.
  intros Hs.
  destruct (validateSerializedItem item) as [[]|e] eqn:Hv;
    [|unfold Store.load; by rewrite Hv].
  destruct (validateSerializedItem_is_obj _ Hv) as [a ->].
  destruct (load_valid dirname a s Hv) as (k' & n' & _ & _ & _ & _ & ->).
  simpl. destruct Hs as (c & Hc & Hk). unfold Store.has_record. simpl.
  destruct (decide (n' = n)) as [->|Hne].
  - rewrite JSMap_get_set_eq. eexists. split; [done|].
    apply _insertNoSave_keeps.
    by rewrite (collections_present dirname n s c).
  - rewrite JSMap_get_set_ne, collections_get_ne by done. by exists c.
Qed.

Lemma load_files (dirname : string → string) (a : Obj) (s : Store.t)
    (n : string) (k : Index) :
  validateSerializedItem (VObj a) = Ok tt →
  as_index (getProp a "_id") = Some k →
  getProp a "_collection" = VStr n →
  (Store.load dirname (VObj a) s).2 = Ok tt
  ∧ Store.has_record n k (Store.load dirname (VObj a) s).1
  ∨ (Store.load dirname (VObj a) s).2 = Throw InsertionError.
Proof.
  intros Hv Hk Hn.
  destruct (load_valid dirname a s Hv) as (k' & n' & Hk' & _ & Hn' & _ & ->).
  assert (n' = n) as -> by congruence. assert (k' = k) as -> by congruence.
  simpl.
  destruct (_insertNoSave_cases (Store.untagged a)
              (Store.collections dirname n s).2)
    as [(k2 & Hk2 & Hget & ->)|[-> _]]; simpl; [left|by right].
  split; [done|]. unfold Store.has_record. simpl.
  rewrite JSMap_get_set_eq. eexists. split; [done|]. simpl.
  rewrite (untagged_id a k) in Hk2 by done.
  assert (k2 = k) as -> by congruence.
  rewrite JSMap_get_app, Hget. simpl. rewrite decide_True by done.
  by eexists.
Qed.

Lemma load_duplicate (dirname : string → string) (b : Obj) (s : Store.t)
    (n : string) (k : Index) :
  validateSerializedItem (VObj b) = Ok tt →
  as_index (getProp b "_id") = Some k →
  getProp b "_collection" = VStr n →
  Store.has_record n k s →
  (Store.load dirname (VObj b) s).2 = Throw InsertionError.
Proof.
  intros Hv Hk Hn (c & Hc & Hheld).
  destruct (load_valid dirname b s Hv) as (k' & n' & Hk' & _ & Hn' & _ & ->).
  assert (n' = n) as -> by congruence. assert (k' = k) as -> by congruence.
  simpl. rewrite (collections_present dirname n s c) by done.
  simpl.
  destruct (_insertNoSave_cases (Store.untagged b) c)
    as [(k2 & Hk2 & Hget & _)|[-> _]]; [|done].
  rewrite (untagged_id b k) in Hk2 by done.
  assert (k2 = k) as -> by congruence.
  destruct Hheld as [? ?]. congruence.
Qed.

Lemma load_valid_completion (dirname : string → string) (item : JSValue)
    (s : Store.t) :
  validateSerializedItem item = Ok tt →
  (Store.load dirname item s).2 = Ok tt
  ∨ (Store.load dirname item s).2 = Throw InsertionError.
Proof.
  intros Hv. destruct (validateSerializedItem_is_obj _ Hv) as [a ->].
  destruct (load_valid dirname a s Hv) as (k & n & Hk & _ & Hn & _ & _).
  destruct (load_files dirname a s n k Hv Hk Hn) as [[? _]|?]; auto.
Qed.

(** Once a record is held, the loop ends in [InsertionError] when it
    comes to a valid record with the same identifier and collection. *)
Lemma forEach_load_held (dirname : string → string) (data : list JSValue)
    (j : nat) (b : Obj) (s : Store.t) (n : string) (k : Index) :
  Store.has_record n k s →
  data !! j = Some (VObj b) →
  as_index (getProp b "_id") = Some k →
  getProp b "_collection" = VStr n →
  (∀ (p : nat) x,
     (p ≤ j)%nat → data !! p = Some x → validateSerializedItem x = Ok tt) →
  (forEach (Store.load dirname) data s).2 = Throw InsertionError.
Proof.
  revert j s. induction data as [|x data IH]; intros j s Hs Hj Hk Hn Hvalid;
    [done|]. simpl.
  destruct j as [|j]; simpl in Hj.
  - injection Hj as ->.
    pose proof (load_duplicate dirname b s n k
                  (Hvalid 0 _ (Nat.le_refl 0) eq_refl) Hk Hn Hs) as Hdup.
    destruct (Store.load dirname (VObj b) s) as [s' r]. simpl in Hdup.
    by rewrite Hdup.
  - pose proof (load_valid_completion dirname x s
                  (Hvalid 0 x (Nat.le_0_l _) eq_refl)) as Hx.
    pose proof (load_has_record dirname x s n k Hs) as Hs'.
    destruct (Store.load dirname x s) as [s' r]. simpl in Hx, Hs'.
    destruct Hx as [->| ->]; [|done].
    apply (IH j); [done..|].
    intros p y Hp Hy. apply (Hvalid (S p)); [lia|done].
Qed.

Lemma forEach_load_twice (dirname : string → string) (data : list JSValue)
    (i j : nat) (a b : Obj) (s : Store.t) :
  i < j →
  data !! i = Some (VObj a) →
  data !! j = Some (VObj b) →
  getProp a "_id" = getProp b "_id" →
  getProp a "_collection" = getProp b "_collection" →
  (∀ (p : nat) x,
     (p ≤ j)%nat → data !! p = Some x → validateSerializedItem x = Ok tt) →
  (forEach (Store.load dirname) data s).2 = Throw InsertionError.
Proof.
  revert i j s.
  induction data as [|x data IH]; intros i j s Hij Hi Hj Hid Hcn Hvalid;
    [done|]. simpl.
  destruct j as [|j]; [lia|]. simpl in Hj.
  assert (∀ (p : nat) y, (p ≤ j)%nat → data !! p = Some y →
                 validateSerializedItem y = Ok tt) as Hvalid'.
  { intros p y Hp Hy. apply (Hvalid (S p)); [lia|done]. }
  destruct i as [|i]; simpl in Hi.
  - injection Hi as ->.
    assert (validateSerializedItem (VObj a) = Ok tt) as Hv
      by (apply (Hvalid 0); [lia|done]).
    destruct (load_valid dirname a s Hv) as (k & n & Hk & _ & Hn & _ & _).
    pose proof (load_files dirname a s n k Hv Hk Hn) as Ha.
    destruct (Store.load dirname (VObj a) s) as [s' r]. simpl in Ha.
    destruct Ha as [[-> Hheld]| ->]; [|done].
    apply (forEach_load_held dirname data j b s' n k); try done; congruence.
  - pose proof (load_valid_completion dirname x s
                  (Hvalid 0 x (Nat.le_0_l _) eq_refl)) as Hx.
    destruct (Store.load dirname x s) as [s' r]. simpl in Hx.
    destruct Hx as [->| ->]; [|done].
    apply (IH i j); [lia|done..].
Qed.

(** C10, as stated, fails: a record that is not valid and stands before
    the second of the two ends the build with [InvalidItemError]. *)
Lemma C10_duplicate_records_counterexample :
  ¬ ∀ (dirname : string → string) (data : list JSValue) (w : Fs.World)
      (i j : nat) (a b : Obj),
      i < j → data !! i = Some (VObj a) → data !! j = Some (VObj b) →
      validateSerializedItem (VObj a) = Ok tt →
      validateSerializedItem (VObj b) = Ok tt →
      getProp a "_id" = getProp b "_id" →
      getProp a "_collection" = getProp b "_collection" →
      storeFromObjects dirname (VArr data) "" w = (w, Throw InsertionError).
Proof.
  intros H.
  pose (u := ({[ "_id" := VNum (Int 1); "_collection" := VStr "users" ]} : Obj)).
  specialize (H dirname_posix
                [VObj {[ "_id" := VStr ""; "_collection" := VStr "x" ]};
                 VObj u; VObj u]
                sample_world 1 2 u u).
  discriminate H; done || lia.
Qed.

(** C10, amended. When the records of the array up to the second of two
    records with the same [_id] and the same [_collection] are all
    valid, and the store itself could be constructed, the build fails
    with [InsertionError], and no store is returned. *)
Theorem C10_duplicate_records_refused (dirname : string → string)
    (data : list JSValue) (storePath : string) (w w' : Fs.World)
    (store : Store.t) (i j : nat) (a b : Obj) :
  Store.new dirname storePath w = (w', Ok store) →
  i < j →
  data !! i = Some (VObj a) →
  data !! j = Some (VObj b) →
  getProp a "_id" = getProp b "_id" →
  getProp a "_collection" = getProp b "_collection" →
  (∀ (p : nat) x,
     (p ≤ j)%nat → data !! p = Some x → validateSerializedItem x = Ok tt) →
  storeFromObjects dirname (VArr data) storePath w
  = (w', Throw InsertionError).
Proof.
  intros Hnew Hij Hi Hj Hid Hcn Hvalid. unfold storeFromObjects.
  rewrite Hnew.
  pose proof (forEach_load_twice dirname data i j a b store
                Hij Hi Hj Hid Hcn Hvalid) as Hloop.
  destruct (forEach (Store.load dirname) data store) as [s' r].
  simpl in Hloop. by rewrite Hloop.
Qed.

Lemma C10_duplicate_records_refused_witness :
  let u : Obj := {[ "_id" := VNum (Int 1); "_collection" := VStr "users" ]} in
  storeFromObjects dirname_posix (VArr [VObj u; VObj u]) "" sample_world
  = (sample_world, Throw InsertionError).
Proof.
  intros u.
  apply (C10_duplicate_records_refused dirname_posix [VObj u; VObj u] ""
           sample_world sample_world
           {| Store.fPath := ""; Store._collections := [] |} 0 1 u u);
    try reflexivity.
  - lia.
  - intros [|[|p]] x Hp Hx; simpl in Hx; [| |lia];
      injection Hx as <-; reflexivity.
Defined.

(** ** The state a store maintains *)

Lemma JSMap_keys_set {K V : Type} `{EqDecision K} (k : K) (v : V)
    (m : JSMap.t K V) :
  NoDup (JSMap.keys m) → NoDup (JSMap.keys (JSMap.set k v m)).
Proof.
  intros Hnd. destruct (JSMap.get k m) as [v0|] eqn:Hget;
    [|by apply JSMap_keys_set_fresh].
  unfold JSMap.keys in *.
  assert ((JSMap.set k v m).*1 = m.*1) as ->; [|done].
  clear Hnd. induction m as [|[k' v'] m IH]; [done|].
  simpl in *. destruct (decide (k = k')) as [->|]; simpl; [done|].
  f_equal. by apply IH.
Qed.

Lemma JSMap_Forall_set {K V : Type} `{EqDecision K} (P : K * V → Prop)
    (k : K) (v : V) (m : JSMap.t K V) :
  Forall P m → P (k, v) → Forall P (JSMap.set k v m).
Proof.
  intros Hm Hkv. induction Hm as [|[k' v'] m Hx Hm IH]; simpl.
  - by apply Forall_singleton.
  - destruct (decide (k = k')); by apply Forall_cons.
Qed.

Lemma Store_valid_spec (s : Store.t) :
  Store.valid s = true
  ↔ NoDup (JSMap.keys (Store._collections s))
    ∧ Forall (λ e, Collection.name e.2 = e.1 ∧ Collection.valid e.2 = true)
        (Store._collections s).
Proof.
  unfold Store.valid.
  rewrite andb_true_iff, bool_decide_eq_true, forallb_forall, Forall_forall.
  split; intros [Hnd Hcs]; (split; [done|]).
  - intros [n c] Hin. apply list_elem_of_In, Hcs in Hin.
    apply andb_true_iff in Hin as [Hn Hc].
    by apply bool_decide_eq_true in Hn.
  - intros [n c] Hin. apply list_elem_of_In, Hcs in Hin as [Hn Hc].
    simpl in *. apply andb_true_iff. by rewrite bool_decide_eq_true.
Qed.

(** A store is made valid and stays valid: [collections] and an
    insertion into the collection it answers keep the names distinct,
    the collections under their names and valid, and the hooks. *)
Lemma Store_new_valid (dirname : string → string) (w : Fs.World) :
  ∃ s, Store.new dirname "" w = (w, Ok s)
       ∧ Store.valid s = true ∧ Store.hooked dirname s.
Proof. eexists. split_and!; [done..|]. constructor. Qed.

Lemma Store_insertion_valid (dirname : string → string) (n : string)
    (i : Insertion) (s : Store.t) (w : Fs.World) :
  Store.valid s = true → Store.hooked dirname s →
  let s1 := (Store.collections dirname n s).1 in
  let c := (Store.collections dirname n s).2 in
  let s2 := Store.mutated n (perform i c w).1.1 s1 in
  Store.valid s1 = true ∧ Store.hooked dirname s1
  ∧ Store.valid s2 = true ∧ Store.hooked dirname s2.
Proof.
  intros [Hnd Hcs]%Store_valid_spec Hhook s1 c s2.
  assert (Store.valid s1 = true ∧ Store.hooked dirname s1
          ∧ Collection.name c = n ∧ Collection.valid c = true
          ∧ Collection._onUpdate c = Store.persist dirname)
    as (Hs1 & Hh1 & Hname & Hc & Hhc).
  { subst s1 c. unfold Store.collections.
    destruct (JSMap.get n (Store._collections s)) as [c|] eqn:Hget; simpl.
    - apply JSMap_get_elem_of in Hget.
      destruct (proj1 (Forall_forall _ _) Hcs _ Hget) as [? ?].
      split_and!; [by apply Store_valid_spec|done|done..|].
      unfold Store.hooked in Hhook. rewrite Forall_forall in Hhook.
      apply Hhook. unfold JSMap.values. apply list_elem_of_fmap.
      by exists (n, c).
    - split_and!; try done.
      + apply Store_valid_spec. simpl. split.
        * by apply JSMap_keys_set_fresh.
        * apply JSMap_Forall_set; [done|]. split; [done|].
          apply Collection_new_valid.
      + unfold Store.hooked, JSMap.values in *. simpl.
        rewrite JSMap_set_fresh by done. rewrite fmap_app.
        apply Forall_app. split; [done|]. by apply Forall_singleton. }
  split_and!; [done..| |].
  - apply Store_valid_spec in Hs1 as [Hnd1 Hcs1].
    apply Store_valid_spec. subst s2. simpl. split.
    + by apply JSMap_keys_set.
    + apply JSMap_Forall_set; [done|]. simpl. split.
      * destruct (perform_cases i c w)
          as [(k & _ & _ & w' & r & -> & _)|[-> _]]; done.
      * by apply perform_valid.
  - unfold Store.hooked, JSMap.values in *. subst s2. simpl.
    rewrite Forall_fmap in Hh1 |- *.
    apply JSMap_Forall_set; [done|]. simpl.
    destruct (perform_cases i c w)
      as [(k & _ & _ & w' & r & -> & _)|[-> _]]; done.
Qed.

(** ** The round trip *)

Lemma forEach_app {S : Type} (f : JSValue → S → S * Result unit)
    (l1 l2 : list JSValue) (s : S) :
  forEach f (l1 ++ l2) s
  = match forEach f l1 s with
    | (s', Ok _) => forEach f l2 s'
    | (s', Throw e) => (s', Throw e)
    end.
Proof.
  revert s. induction l1 as [|x l1 IH]; intros s; simpl; [done|].
  destruct (f x s) as [s' [[]|e]]; [apply IH|done].
Qed.

Lemma JSMap_set_last {K V : Type} `{EqDecision K} (k : K) (v v' : V)
    (m : JSMap.t K V) :
  JSMap.get k m = None → JSMap.set k v' (m ++ [(k, v)]) = m ++ [(k, v')].
Proof.
  induction m as [|[k0 v0] m IH]; simpl.
  - by rewrite decide_True.
  - destruct (decide (k = k0)); [done|]. intros Hm. by rewrite IH.
Qed.

Section Tagged.
Context (c : Collection.t) (e : Index * Obj) (He : entry_portable e).

Lemma tagged_id : Store.tagged c e.2 !! "_id" = Some (getProp e.2 "_id").
Proof.
  unfold Store.tagged, spread_over.
  rewrite lookup_union_r by apply lookup_delete_eq.
  by rewrite lookup_insert_ne, lookup_singleton_eq.
Qed.

Lemma tagged_collection :
  Store.tagged c e.2 !! "_collection" = Some (VStr (Collection.name c)).
Proof.
  destruct He as (_ & _ & Hcn & _). unfold Store.tagged, spread_over.
  rewrite lookup_union_r by by rewrite lookup_delete_ne.
  by rewrite lookup_insert_eq.
Qed.

Lemma tagged_other (j : string) :
  j ≠ "_id" → j ≠ "_collection" → Store.tagged c e.2 !! j = e.2 !! j.
Proof.
  intros H1 H2. unfold Store.tagged, spread_over.
  rewrite lookup_union, lookup_delete_ne by done.
  rewrite lookup_insert_ne, lookup_singleton_ne by done.
  by destruct (e.2 !! j).
Qed.

Lemma entry_id_lookup : e.2 !! "_id" = Some (Index_value e.1).
Proof.
  destruct He as (Hk & _). unfold getProp in Hk.
  destruct (e.2 !! "_id") as [[]|]; simplify_eq/=; by rewrite <-Hk.
Qed.

Lemma untagged_tagged : Store.untagged (Store.tagged c e.2) = e.2.
Proof.
  destruct He as (_ & _ & Hcn & _).
  apply map_eq. intros j. unfold Store.untagged, spread_over, getProp at 1.
  rewrite tagged_id. simpl.
  destruct (decide (j = "_id")) as [->|Hid].
  - rewrite lookup_union_r by apply lookup_delete_eq.
    rewrite lookup_singleton_eq, entry_id_lookup.
    unfold getProp. by rewrite entry_id_lookup.
  - rewrite lookup_union, lookup_delete_ne, lookup_singleton_ne by done.
    destruct (decide (j = "_collection")) as [->|Hc].
    + by rewrite lookup_delete_eq, Hcn.
    + rewrite lookup_delete_ne, tagged_other by done.
      by destruct (e.2 !! j).
Qed.

Lemma tagged_valid :
  Collection.name c ≠ "" →
  validateSerializedItem (VObj (Store.tagged c e.2)) = Ok tt.
Proof.
  intros Hname. apply validateSerializedItem_Ok.
  destruct He as (Hk & Hne & _). unfold getProp.
  rewrite tagged_id, tagged_collection. simpl. split.
  - by exists e.1.
  - by exists (Collection.name c).
Qed.

Lemma tagged_safe : json_safe (VObj (Store.tagged c e.2)) = true.
Proof.
  destruct He as (_ & _ & _ & Hsafe). rewrite json_safe_obj in Hsafe.
  apply json_safe_obj. intros j x Hj.
  destruct (decide (j = "_id")) as [->|Hid].
  - rewrite tagged_id in Hj. injection Hj as <-.
    unfold getProp. rewrite entry_id_lookup. simpl.
    apply (Hsafe "_id"), entry_id_lookup.
  - destruct (decide (j = "_collection")) as [->|Hc].
    + rewrite tagged_collection in Hj. by injection Hj as <-.
    + rewrite tagged_other in Hj by done. by apply (Hsafe j).
Qed.

(** Written and parsed, a tagged record is itself. *)
Lemma tagged_parsed :
  JSON_value (JObject (omap JSON_stringify (Store.tagged c e.2)))
  = VObj (Store.tagged c e.2).
Proof.
  pose proof (JSON_stringify_value _ tagged_safe) as H.
  simpl in *. congruence.
Qed.
End Tagged.

Section Rebuild.
Context (dirname : string → string) (p : string).

(** The first record of a collection makes [collections] create it. *)
Lemma load_creates (P : JSMap.t string Collection.t) (n : string) (a : Obj) :
  validateSerializedItem (VObj a) = Ok tt →
  getProp a "_collection" = VStr n →
  JSMap.get n P = None →
  Store.load dirname (VObj a) {| Store.fPath := p; Store._collections := P |}
  = Store.load dirname (VObj a)
      {| Store.fPath := p;
         Store._collections := P ++ [(n, collection_of dirname n [])] |}.
Proof.
  intros Hv Hn Hget.
  destruct (load_valid dirname a
              {| Store.fPath := p; Store._collections := P |} Hv)
    as (k & n' & _ & _ & Hn' & _ & ->).
  destruct (load_valid dirname a
              {| Store.fPath := p;
                 Store._collections := P ++ [(n, collection_of dirname n [])] |}
              Hv)
    as (k2 & n2 & _ & _ & Hn2 & _ & ->).
  assert (n' = n) as -> by congruence. assert (n2 = n) as -> by congruence.
  unfold Store.collections. simpl.
  rewrite Hget, JSMap_get_app, Hget. simpl. rewrite decide_True by done.
  simpl. by rewrite JSMap_set_fresh.
Qed.

(** A tagged record of a collection that is there goes to its end. *)
Lemma load_tagged (P : JSMap.t string Collection.t) (n : string)
    (I1 : JSMap.t Index Obj) (c : Collection.t) (e : Index * Obj) :
  entry_portable e →
  Collection.name c = n → n ≠ "" →
  JSMap.get n P = None →
  JSMap.get e.1 I1 = None →
  Store.load dirname (VObj (Store.tagged c e.2))
    {| Store.fPath := p;
       Store._collections := P ++ [(n, collection_of dirname n I1)] |}
  = ({| Store.fPath := p;
        Store._collections := P ++ [(n, collection_of dirname n (I1 ++ [e]))] |},
     Ok tt).
Proof.
  intros He Hname Hne HP HI1.
  assert (validateSerializedItem (VObj (Store.tagged c e.2)) = Ok tt) as Hv
    by (apply tagged_valid; [done|congruence]).
  destruct (load_valid dirname _
              {| Store.fPath := p;
                 Store._collections := P ++ [(n, collection_of dirname n I1)] |}
              Hv)
    as (k & n' & _ & _ & Hn' & _ & ->).
  unfold getProp in Hn'. rewrite (tagged_collection c e He) in Hn'.
  simpl in Hn'. assert (n' = n) as -> by congruence.
  rewrite (collections_present dirname n _ (collection_of dirname n I1)).
  2:{ simpl. rewrite JSMap_get_app, HP. simpl. by rewrite decide_True. }
  simpl. rewrite (untagged_tagged c e He).
  destruct (_insertNoSave_cases e.2 (collection_of dirname n I1))
    as [(k2 & Hk2 & Hget & ->)|[_ Hdup]].
  - destruct He as (Hk & _). assert (k2 = e.1) as -> by congruence.
    unfold Store.mutated. simpl. rewrite JSMap_set_last by done.
    by destruct e.
  - destruct He as (Hk & _). destruct (Hdup _ Hk) as [? ?].
    simpl in *. congruence.
Qed.

Lemma forEach_load_collection (P : JSMap.t string Collection.t) (n : string)
    (c : Collection.t) (I2 I1 : JSMap.t Index Obj) :
  Collection.name c = n → n ≠ "" →
  JSMap.get n P = None →
  NoDup (JSMap.keys (I1 ++ I2)) →
  Forall entry_portable I2 →
  forEach (Store.load dirname) (VObj <$> map (Store.tagged c) I2.*2)
    {| Store.fPath := p;
       Store._collections := P ++ [(n, collection_of dirname n I1)] |}
  = ({| Store.fPath := p;
        Store._collections := P ++ [(n, collection_of dirname n (I1 ++ I2))] |},
     Ok tt).
Proof.
  intros Hname Hne HP. revert I1.
  induction I2 as [|e I2 IH]; intros I1 Hnd Hok; simpl.
  - by rewrite app_nil_r.
  - apply Forall_cons in Hok as [He Hok].
    rewrite load_tagged; [|done..|].
    + rewrite IH; [|by rewrite <-app_assoc|done].
      by rewrite <-app_assoc.
    + apply JSMap_get_None. unfold JSMap.keys in *.
      rewrite fmap_app in Hnd. apply NoDup_app in Hnd as (_ & Hnd & _).
      intros Hin. apply (Hnd _ Hin). simpl. apply list_elem_of_here.
Qed.

Lemma forEach_load_store (L P : JSMap.t string Collection.t) :
  NoDup (JSMap.keys (P ++ L)) →
  Forall (collection_portable dirname) L →
  forEach (Store.load dirname)
    (VObj <$> (c ← L.*2; map (Store.tagged c) (Collection.all c)))
    {| Store.fPath := p; Store._collections := P |}
  = ({| Store.fPath := p; Store._collections := P ++ L |}, Ok tt).
Proof.
  revert P. induction L as [|[n c] L IH]; intros P Hnd Hok; simpl.
  - by rewrite app_nil_r.
  - apply Forall_cons in Hok as [(Hc & Hne & Hitems & Hkeys & Hentries) Hok].
    simpl in *.
    assert (JSMap.get n P = None) as HP.
    { apply JSMap_get_None. unfold JSMap.keys in *.
      rewrite fmap_app in Hnd. apply NoDup_app in Hnd as (_ & Hnd & _).
      intros Hin. apply (Hnd _ Hin). simpl. apply list_elem_of_here. }
    assert (Collection.name c = n) as Hname by by rewrite Hc.
    rewrite fmap_app, forEach_app. unfold Collection.all, JSMap.values.
    destruct (Collection._items c) as [|e I2] eqn:HI; [done|].
    assert (forEach (Store.load dirname)
              (VObj <$> map (Store.tagged c) (e :: I2).*2)
              {| Store.fPath := p; Store._collections := P |}
            = forEach (Store.load dirname)
                (VObj <$> map (Store.tagged c) (e :: I2).*2)
                {| Store.fPath := p;
                   Store._collections :=
                     P ++ [(n, collection_of dirname n [])] |}) as ->.
    { simpl. rewrite (load_creates P n); [done| |  |done].
      - apply tagged_valid; [|congruence].
        by apply Forall_cons in Hentries as [? _].
      - unfold getProp. rewrite tagged_collection, Hname; [done|].
        by apply Forall_cons in Hentries as [? _]. }
    rewrite forEach_load_collection by done. simpl.
    rewrite <-Hc, IH; [|by rewrite <-app_assoc|done].
    by rewrite <-app_assoc.
Qed.
End Rebuild.

Lemma store_portable (dirname : string → string) (s : Store.t) :
  Store.valid s = true → Store.portable s = true → Store.hooked dirname s →
  NoDup (JSMap.keys (Store._collections s))
  ∧ Forall (collection_portable dirname) (Store._collections s).
Proof.
  unfold Store.valid, Store.portable, Store.hooked, JSMap.values.
  rewrite andb_true_iff, bool_decide_eq_true.
  rewrite !forallb_forall, !Forall_forall.
  intros [Hnd Hvalid] Hport Hhook. split; [done|].
  intros [n c] Hin.
  specialize (Hvalid (n, c) (proj1 (list_elem_of_In _ _) Hin)). simpl in Hvalid.
  apply andb_true_iff in Hvalid as [Hname Hc].
  apply bool_decide_eq_true in Hname.
  apply Collection_valid_spec in Hc as [Hkeys Hids].
  assert (c ∈ (Store._collections s).*2) as Hin2.
  { apply list_elem_of_fmap. by exists (n, c). }
  specialize (Hhook c Hin2).
  specialize (Hport c (proj1 (list_elem_of_In _ _) Hin2)).
  unfold Collection.portable in Hport.
  rewrite !andb_true_iff, !negb_true_iff in Hport.
  destruct Hport as [[Hne Hitems] Hentries].
  apply String.eqb_neq in Hne. apply bool_decide_eq_false in Hitems.
  rewrite forallb_forall in Hentries. rewrite Forall_forall in Hids.
  unfold collection_portable. simpl. split_and!; [|congruence|done..|].
  - destruct c. simpl in *. unfold collection_of. by f_equal.
  - apply Forall_forall. intros [k item] He.
    specialize (Hids _ He).
    specialize (Hentries _ (proj1 (list_elem_of_In _ _) He)).
    simpl in *. rewrite !andb_true_iff, negb_true_iff in Hentries.
    destruct Hentries as [[Hk Hcn] Hsafe].
    apply bool_decide_eq_false in Hk.
    unfold entry_portable. simpl. split_and!; [done..| |done].
    by destruct (item !! "_collection").
Qed.

Lemma tagged_records_parsed (dirname : string → string)
    (L : JSMap.t string Collection.t) :
  Forall (collection_portable dirname) L →
  map JSON_value
    (map (λ o, JObject (omap JSON_stringify o))
       (c ← L.*2; map (Store.tagged c) (Collection.all c)))
  = VObj <$> (c ← L.*2; map (Store.tagged c) (Collection.all c)).
Proof.
  intros HL. rewrite <-list_fmap_compose. apply list_fmap_ext.
  intros i o Hi. simpl.
  apply list_elem_of_lookup_2, list_elem_of_bind in Hi as (c & Ho & Hc).
  apply list_elem_of_fmap in Hc as ([n c'] & -> & Hc).
  apply list_elem_of_fmap in Ho as (item & -> & Hitem).
  apply list_elem_of_fmap in Hitem as (e & -> & He).
  rewrite Forall_forall in HL.
  destruct (HL _ Hc) as (_ & _ & _ & _ & Hentries).
  rewrite Forall_forall in Hentries.
  apply tagged_parsed, Hentries, He.
Qed.

(** C1, as stated, fails: a collection without a record leaves no trace
    in the flat array, so the store that is rebuilt does not have it. *)
Lemma C1_round_trip_counterexample :
  ¬ ∀ (dirname : string → string) (s : Store.t) (w : Fs.World),
      Store.valid s = true → Store.hooked dirname s →
      ∃ data s',
        JSON_parse (JsonText (Store.serialize s)) = Ok data
        ∧ storeFromObjects dirname data "" w = (w, Ok s')
        ∧ Store.collNames s' = Store.collNames s.
Proof.
  intros H.
  destruct (H dirname_posix
              (Store.collections dirname_posix "users"
                 {| Store.fPath := ""; Store._collections := [] |}).1
              sample_world eq_refl)
    as (data & s' & Hdata & Hbuild & Hnames).
  - repeat constructor.
  - injection Hdata as <-. injection Hbuild as <-. discriminate Hnames.
Qed.

(** C1, amended. For a store whose collections are named, have at least
    one record each, file no record under the empty string, and hold
    records without a field [_collection] of their own and with fields
    that JSON carries (no [undefined], no non-finite number), the store
    built by [storeFromObjects] from the parse of [serialize(store)] has
    the same collections in the same order, each with the same records:
    the same names, the same records field for field, the same
    counts. *)
Theorem C1_round_trip (dirname : string → string) (s : Store.t)
    (w : Fs.World) :
  Store.valid s = true →
  Store.portable s = true →
  Store.hooked dirname s →
  ∃ data s',
    JSON_parse (JsonText (Store.serialize s)) = Ok data
    ∧ storeFromObjects dirname data "" w = (w, Ok s')
    ∧ Store._collections s' = Store._collections s
    ∧ Store.collNames s' = Store.collNames s
    ∧ ∀ name,
        Collection.all <$> JSMap.get name (Store._collections s')
        = Collection.all <$> JSMap.get name (Store._collections s)
        ∧ Collection.count <$> JSMap.get name (Store._collections s')
          = Collection.count <$> JSMap.get name (Store._collections s).
Proof.
  intros Hvalid Hport Hhook.
  destruct (store_portable dirname s Hvalid Hport Hhook) as [Hnd HL].
  exists (VArr (VObj <$> Store.tagged_records s)),
         {| Store.fPath := ""; Store._collections := Store._collections s |}.
  split_and!; try done.
  - rewrite serialize_tagged_records. simpl. do 2 f_equal.
    unfold Store.tagged_records, JSMap.values.
    by apply (tagged_records_parsed dirname).
  - unfold storeFromObjects. simpl.
    unfold Store.tagged_records, JSMap.values, JSMap.empty.
    by rewrite (forEach_load_store dirname "" (Store._collections s) []).
Qed.

Lemma C1_round_trip_witness :
  ∃ data s',
    JSON_parse (JsonText (Store.serialize sample_store)) = Ok data
    ∧ storeFromObjects dirname_posix data "" sample_world
      = (sample_world, Ok s')
    ∧ Store._collections s' = [("users", sample_users)].
Proof.
  destruct (C1_round_trip dirname_posix sample_store sample_world
              eq_refl eq_refl sample_store_hooked)
    as (data & s' & Hdata & Hbuild & Hsame & _).
  exists data, s'. split_and!; [exact Hdata | exact Hbuild | exact Hsame].
Defined.

(** The other conditions of the amended round trip are needed as well. *)

(** A field [_collection] of a record is spread over the tag: the record
    comes back in the collection its field names, without the field. *)
Example round_trip_own_collection_field :
  let c := filed (INum (Int 1))
             {[ "_id" := VNum (Int 1); "_collection" := VStr "admins" ]}
             (Collection.new "users" (Store.persist dirname_posix)) in
  let s := {| Store.fPath := ""; Store._collections := [("users", c)] |} in
  Result_map Store.collNames
    (storeFromObjects dirname_posix (JSON_value (Store.serialize s)) ""
       sample_world).2
  = Ok ["admins"].
Proof. reflexivity. Qed.

(** A field whose value is [undefined] is not written. *)
Example round_trip_undefined_field :
  let c := filed (INum (Int 1))
             {[ "_id" := VNum (Int 1); "nick" := VUndefined ]}
             (Collection.new "users" (Store.persist dirname_posix)) in
  let s := {| Store.fPath := ""; Store._collections := [("users", c)] |} in
  Result_map
    (λ s', Collection.all <$> JSMap.get "users" (Store._collections s'))
    (storeFromObjects dirname_posix (JSON_value (Store.serialize s)) ""
       sample_world).2
  = Ok (Some [ {[ "_id" := VNum (Int 1) ]} ]).
Proof. reflexivity. Qed.

(** A collection named by the empty string is written with a tag that
    the validation refuses. *)
Example round_trip_unnamed_collection :
  let c := filed (INum (Int 1)) {[ "_id" := VNum (Int 1) ]}
             (Collection.new "" (Store.persist dirname_posix)) in
  let s := {| Store.fPath := ""; Store._collections := [("", c)] |} in
  (storeFromObjects dirname_posix (JSON_value (Store.serialize s)) ""
     sample_world).2
  = Throw InvalidItemError.
Proof. reflexivity. Qed.

(** * Further properties of the store *)

(** ** Collections of a store *)

(** X1. [collections(name)] creates on the first call and answers the
    same collection afterwards: after the call the store has the
    collection, a second call changes nothing and answers the same
    collection, a collection that was not there is made empty, under its
    name, at the end of the names, a collection that was there leaves
    the store as it is, and the other collections are not touched. *)
Theorem X1_collections_lazy (dirname : string → string) (name : string)
    (s : Store.t) :
  let s1 := (Store.collections dirname name s).1 in
  let c := (Store.collections dirname name s).2 in
  Store.hasCollection name s1 = true
  ∧ Store.collections dirname name s1 = (s1, c)
  ∧ (Store.hasCollection name s = false →
     Collection.name c = name ∧ Collection.count c = 0
     ∧ Store.collNames s1 = Store.collNames s ++ [name])
  ∧ (Store.hasCollection name s = true → s1 = s)
  ∧ ∀ other, other ≠ name →
      JSMap.get other (Store._collections s1)
      = JSMap.get other (Store._collections s)
      ∧ Store.hasCollection other s1 = Store.hasCollection other s.
Proof.
  intros s1 c. subst s1 c.
  unfold Store.hasCollection, Store.collections, Store.collNames, JSMap.has.
  destruct (JSMap.get name (Store._collections s)) as [c|] eqn:Hget; simpl.
  - rewrite Hget. split_and!; try done.
  - rewrite JSMap_get_set_eq. split_and!; try done.
    + intros _. split_and!; [done..|].
      rewrite JSMap_set_fresh by done. unfold JSMap.keys.
      by rewrite fmap_app.
    + intros other Hne. by rewrite JSMap_get_set_ne.
Qed.

(** ** Insertion and lookup *)

(** X2. An insertion that completes files its record at the end of the
    collection: the identifier was free, [get] answers the record under
    it, [all] has the record as its last element, [count] has grown by
    one, and [get] on every other identifier answers as before. *)
Theorem X2_insertion_files_record (i : Insertion) (c c' : Collection.t)
    (w w' : Fs.World) :
  perform i c w = (c', w', Ok tt) →
  ∃ k, as_index (getProp (record_of i) "_id") = Some k
       ∧ Collection.get k c = None
       ∧ Collection.get k c' = Some (record_of i)
       ∧ Collection.all c' = Collection.all c ++ [record_of i]
       ∧ Collection.count c' = S (Collection.count c)
       ∧ ∀ k', k' ≠ k → Collection.get k' c' = Collection.get k' c.
Proof.
  intros Hp.
  destruct (perform_cases i c w)
    as [(k & Hk & Hget & w0 & r & Hp' & _)|[Hp' _]]; [|congruence].
  rewrite Hp' in Hp. injection Hp as <- _ _.
  exists k. unfold Collection.get, Collection.all, Collection.count,
    JSMap.values, JSMap.size, filed. simpl.
  split_and!; [done..| | | |].
  - rewrite JSMap_get_app, Hget. simpl. by rewrite decide_True.
  - by rewrite fmap_app.
  - rewrite length_app. simpl. lia.
  - intros k' Hne. rewrite JSMap_get_app.
    destruct (JSMap.get k' (Collection._items c)); [done|].
    simpl. by rewrite decide_False.
Qed.

Lemma X2_insertion_files_record_witness :
  ∃ k, as_index (getProp {[ "_id" := VNum (Int 1); "name" := VStr "a" ]} "_id")
       = Some k
       ∧ Collection.get k (Collection.new "users" (Store.persist dirname_posix))
         = None
       ∧ Collection.get k sample_users
         = Some {[ "_id" := VNum (Int 1); "name" := VStr "a" ]}
       ∧ Collection.all sample_users
         = [] ++ [ {[ "_id" := VNum (Int 1); "name" := VStr "a" ]} ]
       ∧ Collection.count sample_users = 1
       ∧ ∀ k', k' ≠ k →
           Collection.get k' sample_users
           = Collection.get k'
               (Collection.new "users" (Store.persist dirname_posix)).
Proof.
  exact (X2_insertion_files_record
           (ViaInsertNoSave {[ "_id" := VNum (Int 1); "name" := VStr "a" ]})
           (Collection.new "users" (Store.persist dirname_posix))
           sample_users sample_world sample_world eq_refl).
Defined.

(** X3. Without an identifier, and with fields that carry no [_id], the
    record is filed under the string [randomUUID()] answers, with that
    string as its [_id]; the insertion fails with [InsertionError] when
    the collection already has a record under that string. *)
Theorem X3_generated_identifier (object : Obj) (uuid : string)
    (c : Collection.t) :
  object !! "_id" = None →
  Collection.insertSync object VUndefined uuid c
  = if JSMap.has (IStr uuid) (Collection._items c)
    then (c, Throw InsertionError)
    else (filed (IStr uuid) (<["_id" := VStr uuid]> object) c, Ok tt).
Proof.
  intros Hown. unfold Collection.insertSync.
  rewrite _putInMap_insertNoSave. simpl.
  assert (spread_over {[ "_id" := VStr uuid ]} object
          = <["_id" := VStr uuid]> object) as ->.
  { unfold spread_over. apply map_eq. intros j.
    rewrite lookup_union, lookup_insert.
    destruct (decide ("_id" = j)) as [<-|Hne].
    - by rewrite Hown, lookup_singleton_eq.
    - rewrite lookup_singleton_ne by done. by destruct (object !! j). }
  destruct (_insertNoSave_cases (<["_id" := VStr uuid]> object) c)
    as [(k & Hk & Hget & ->)|[-> Hdup]];
    unfold getProp in *; rewrite lookup_insert_eq in *; simpl in *.
  - injection Hk as <-. by rewrite (proj2 (JSMap_has_false _ _) Hget).
  - by rewrite (proj2 (JSMap_has_get _ _) (Hdup _ eq_refl)).
Qed.

Lemma X3_generated_identifier_witness :
  Collection.insertSync {[ "name" := VStr "b" ]} VUndefined "uuid" sample_users
  = (filed (IStr "uuid") {[ "_id" := VStr "uuid"; "name" := VStr "b" ]}
       sample_users, Ok tt).
Proof.
  exact (X3_generated_identifier {[ "name" := VStr "b" ]} "uuid" sample_users
           eq_refl).
Defined.

(** X4. Fields that carry an [_id] of their own decide the identifier:
    [insertSync(object, id)] is then [_insertNoSave(object)], whatever
    [id] is, given or not. *)
Theorem X4_own_id_decides (object : Obj) (id v : JSValue) (uuid : string)
    (c : Collection.t) :
  object !! "_id" = Some v →
  Collection.insertSync object id uuid c = Collection._insertNoSave object c.
Proof.
  intros Hown. unfold Collection.insertSync.
  rewrite _putInMap_insertNoSave. simpl. f_equal.
  unfold spread_over. apply map_eq. intros j. rewrite lookup_union.
  destruct (decide (j = "_id")) as [->|Hne].
  - by rewrite Hown, lookup_singleton_eq.
  - rewrite lookup_singleton_ne by done. by destruct (object !! j).
Qed.

Lemma X4_own_id_decides_witness :
  Collection.insertSync {[ "_id" := VNum (Int 5) ]} (VBool true) "uuid"
    sample_users
  = Collection._insertNoSave {[ "_id" := VNum (Int 5) ]} sample_users.
Proof.
  exact (X4_own_id_decides {[ "_id" := VNum (Int 5) ]} (VBool true)
           (VNum (Int 5)) "uuid" sample_users eq_refl).
Defined.

(** X5. [itemHasProp] answers [true] exactly for a property that is
    there, is not [undefined], and has the type asked for; asked for the
    type ["undefined"], which its signature admits, it never answers
    [true]; and [null] passes for ["object"]. *)
Theorem X5_itemHasProp (item : Obj) (prop type : string) :
  (itemHasProp item prop type = true
   ↔ ∃ v, item !! prop = Some v ∧ is_undefined v = false ∧ typeof v = type)
  ∧ itemHasProp item prop "undefined" = false
  ∧ (item !! prop = Some VNull → itemHasProp item prop "object" = true).
Proof.
  unfold itemHasProp, getProp. split_and!.
  - destruct (item !! prop) as [v|]; simpl.
    + destruct (is_undefined v) eqn:Hu.
      * split; [done|]. intros (v' & [= <-] & Hu' & _). congruence.
      * destruct (String.eqb (typeof v) type) eqn:Heq; simpl.
        -- apply String.eqb_eq in Heq. split; [|done]. intros _. by exists v.
        -- apply String.eqb_neq in Heq. split; [done|].
           by intros (v' & [= <-] & _ & Ht).
    + split; [done|]. by intros (v' & [=] & _).
  - destruct (item !! prop) as [[]|]; done.
  - by intros ->.
Qed.

(** ** Serialization *)

Lemma sum_list_app_counts (l1 l2 : list nat) :
  sum_list (l1 ++ l2) = sum_list l1 + sum_list l2.
Proof. induction l1 as [|x l1 IH]; simpl; lia. Qed.

Lemma tagged_records_length (s : Store.t) :
  length (Store.tagged_records s) = Store.total s.
Proof.
  unfold Store.tagged_records, Store.total, Collection.count, Collection.all,
    JSMap.size, JSMap.values.
  induction (Store._collections s).*2 as [|c cs IH]; [done|].
  change (length (map (Store.tagged c) (Collection._items c).*2
                  ++ (cs ≫= λ collection,
                        map (Store.tagged collection)
                          (Collection._items collection).*2))
          = length (Collection._items c)
            + sum_list ((λ c, length (Collection._items c)) <$> cs)).
  rewrite length_app, IH. by rewrite !length_map.
Qed.

(** X6. [serialize] writes an array with one object for each record of
    the store: its length is the sum of the counts of the collections,
    whatever the records hold. *)
Theorem X6_serialize_one_per_record (s : Store.t) :
  ∃ elements,
    Store.serialize s = JArray elements
    ∧ length elements = Store.total s
    ∧ Forall (λ j, ∃ members, j = JObject members) elements.
Proof.
  eexists. split_and!.
  - apply serialize_tagged_records.
  - by rewrite length_map, tagged_records_length.
  - apply Forall_forall. intros j (o & -> & _)%list_elem_of_fmap.
    by eexists.
Qed.

(** ** Saving and loading *)

(** What a [persist] that completes leaves behind. *)
Lemma persist_done (dirname : string → string) (s : Store.t)
    (w w1 : Fs.World) :
  Store.fPath s ≠ "" →
  Store.persist dirname (Store.as_this s) w = (w1, Ok tt) →
  dirname (Store.fPath s) ∈ Fs.dirs w1
  ∧ Fs.files w1 = <[Store.fPath s := JsonText (Store.serialize s)]> (Fs.files w).
Proof.
  intros Hpath. rewrite persist_on_store by done. simpl.
  unfold Fs.mkdirSync, Fs.writeFile. simpl.
  repeat case_bool_decide; simpl; intros Heq;
    repeat case_bool_decide; simplify_eq; simpl; by split.
Qed.

(** X7. [persist] twice is [persist] once: when a call has completed, a
    second call on the same store completes too and leaves the
    directories and the files as the first left them. *)
Theorem X7_persist_twice (dirname : string → string) (s : Store.t)
    (w w1 : Fs.World) :
  Store.persist dirname (Store.as_this s) w = (w1, Ok tt) →
  ∃ w2, Store.persist dirname (Store.as_this s) w1 = (w2, Ok tt)
        ∧ Fs.dirs w2 = Fs.dirs w1 ∧ Fs.files w2 = Fs.files w1.
Proof.
  destruct (decide (Store.fPath s = "")) as [Hempty|Hpath].
  - unfold Store.persist, Store.as_this. simpl. rewrite Hempty. simpl.
    intros [= <-]. by exists w.
  - intros Hdone. destruct (persist_done dirname s w w1 Hpath Hdone) as [Hd Hf].
    rewrite persist_on_store by done. simpl.
    rewrite (bool_decide_eq_true_2 _ Hd). simpl.
    unfold Fs.writeFile. simpl. rewrite (bool_decide_eq_true_2 _ Hd).
    eexists. split_and!; [done..|]. simpl.
    by rewrite Hf, insert_insert_eq.
Qed.

Lemma X7_persist_twice_witness :
  let saved :=
    (Store.persist dirname_posix (Store.as_this sample_store) sample_world).1 in
  ∃ w2, Store.persist dirname_posix (Store.as_this sample_store) saved
        = (w2, Ok tt)
        ∧ Fs.dirs w2 = Fs.dirs saved ∧ Fs.files w2 = Fs.files saved.
Proof.
  exact (X7_persist_twice dirname_posix sample_store sample_world _ eq_refl).
Defined.

(** The construction of a store over an existing file. *)
Lemma new_over_file (dirname : string → string) (p : string) (w : Fs.World)
    (text : Text) :
  p ≠ "" → dirname p ∈ Fs.dirs w → Fs.files w !! p = Some text →
  Store.new dirname p w
  = (Fs.called (Fs.Read p) (Fs.called (Fs.Exists (dirname p)) w),
     match JSON_parse text with
     | Ok (VArr data) =>
         match forEach (Store.load dirname) data
                 {| Store.fPath := p; Store._collections := [] |} with
         | (s, Ok _) => Ok s
         | (_, Throw e) => Throw e
         end
     | Ok _ => Throw InvalidSchema
     | Throw e => Throw e
     end).
Proof.
  intros Hp Hd Hfile. unfold Store.new, Store.initStore. simpl.
  rewrite (proj2 (String.eqb_neq p "") Hp).
  rewrite (bool_decide_eq_true_2 _ Hd), Hfile. simpl.
  destruct (JSON_parse text) as [[| |b|n|str|data|m]|e]; try done.
  unfold JSMap.empty. by destruct (forEach _ _ _) as [s' [[]|e]].
Qed.

Lemma persist_then_new (dirname : string → string) (s : Store.t)
    (w w1 : Fs.World) :
  Store.valid s = true → Store.portable s = true → Store.hooked dirname s →
  Store.fPath s ≠ "" →
  Store.persist dirname (Store.as_this s) w = (w1, Ok tt) →
  (Store.new dirname (Store.fPath s) w1).2 = Ok s.
Proof.
  intros Hvalid Hport Hhook Hpath Hdone.
  destruct (store_portable dirname s Hvalid Hport Hhook) as [Hnd HL].
  destruct (persist_done dirname s w w1 Hpath Hdone) as [Hd Hf].
  rewrite serialize_tagged_records in Hf.
  erewrite new_over_file; [|done..|by rewrite Hf, lookup_insert_eq].
  simpl. unfold Store.tagged_records, JSMap.values.
  rewrite (tagged_records_parsed dirname) by done.
  rewrite (forEach_load_store dirname (Store.fPath s)
             (Store._collections s) []) by done.
  simpl. by destruct s.
Qed.

(** X8. Saved and loaded again, a store is itself: for a store with a
    path whose collections are named and not empty, whose identifiers
    are not the empty string and whose records have no [_collection]
    field and only fields that JSON carries, the construction of a store
    over the file that [persist] wrote answers the same store, with the
    same path, collections and records. *)
Theorem X8_persist_then_construct (dirname : string → string) (s : Store.t)
    (w w1 : Fs.World) :
  Store.valid s = true → Store.portable s = true → Store.hooked dirname s →
  Store.fPath s ≠ "" →
  Store.persist dirname (Store.as_this s) w = (w1, Ok tt) →
  (Store.new dirname (Store.fPath s) w1).2 = Ok s.
Proof. apply persist_then_new. Qed.

Lemma X8_persist_then_construct_witness :
  (Store.new dirname_posix "db/data.json"
     (Store.persist dirname_posix (Store.as_this sample_store)
        sample_world).1).2
  = Ok sample_store.
Proof.
  refine (X8_persist_then_construct dirname_posix sample_store sample_world _
            eq_refl eq_refl sample_store_hooked _ eq_refl).
  by intros [=].
Defined.

(** ** Records of a store that is built *)

Lemma collections_answer (dirname : string → string) (n : string)
    (s : Store.t) :
  JSMap.get n (Store._collections (Store.collections dirname n s).1)
  = Some (Store.collections dirname n s).2.
Proof.
  unfold Store.collections.
  destruct (JSMap.get n (Store._collections s)) as [c|] eqn:Hget; simpl;
    [done|]. apply JSMap_get_set_eq.
Qed.

(** The two outcomes of [load] on a valid record. *)
Lemma load_valid_cases (dirname : string → string) (a : Obj) (s : Store.t) :
  validateSerializedItem (VObj a) = Ok tt →
  ∃ k n, as_index (getProp a "_id") = Some k ∧ k ≠ IStr ""
         ∧ getProp a "_collection" = VStr n ∧ n ≠ ""
         ∧ (JSMap.get k (Collection._items (Store.collections dirname n s).2)
            = None
            ∧ Store.load dirname (VObj a) s
              = (Store.mutated n
                   (filed k (Store.untagged a)
                      (Store.collections dirname n s).2)
                   (Store.collections dirname n s).1, Ok tt)
            ∨ is_Some (JSMap.get k (Collection._items
                                      (Store.collections dirname n s).2))
              ∧ Store.load dirname (VObj a) s
                = (Store.mutated n (Store.collections dirname n s).2
                     (Store.collections dirname n s).1,
                   Throw InsertionError)).
Proof.
  intros Hv.
  destruct (load_valid dirname a s Hv) as (k & n & Hk & Hne & Hn & Hne' & ->).
  exists k, n. split_and!; [done..|].
  destruct (_insertNoSave_cases (Store.untagged a)
              (Store.collections dirname n s).2)
    as [(k2 & Hk2 & Hget & ->)|[-> Hdup]]; simpl.
  - rewrite (untagged_id a k) in Hk2 by done.
    assert (k2 = k) as -> by congruence. by left.
  - right. split; [|done]. apply Hdup. by rewrite (untagged_id a k).
Qed.

Lemma load_invalid (dirname : string → string) (x : JSValue) (s : Store.t)
    (e : Error) :
  validateSerializedItem x = Throw e →
  Store.load dirname x s = (s, Throw e).
Proof. intros Hv. unfold Store.load. by rewrite Hv. Qed.

Lemma load_record_kept (dirname : string → string) (x : JSValue)
    (s : Store.t) (n : string) (k : Index) (r : Obj) :
  Store.record n k s = Some r →
  Store.record n k (Store.load dirname x s).1 = Some r.
Proof.
  intros Hs.
  destruct (validateSerializedItem x) as [[]|e] eqn:Hv;
    [|by rewrite (load_invalid dirname x s e)].
  destruct (validateSerializedItem_is_obj _ Hv) as [a ->].
  unfold Store.record in *.
  destruct (JSMap.get n (Store._collections s)) as [c|] eqn:Hc; [|done].
  simpl in Hs.
  destruct (load_valid_cases dirname a s Hv)
    as (k' & n' & _ & _ & _ & _ & [[_ ->]|[_ ->]]); simpl;
    (destruct (decide (n' = n)) as [->|Hne];
     [rewrite JSMap_get_set_eq, (collections_present dirname n s c) by done
     |rewrite JSMap_get_set_ne, collections_get_ne, Hc by done]);
    simpl; try done.
  unfold Collection.get in *. simpl. by rewrite JSMap_get_app, Hs.
Qed.

Lemma load_record_filed (dirname : string → string) (a : Obj) (s s' : Store.t) :
  Store.load dirname (VObj a) s = (s', Ok tt) →
  validateSerializedItem (VObj a) = Ok tt
  ∧ ∃ k n, as_index (getProp a "_id") = Some k
           ∧ getProp a "_collection" = VStr n
           ∧ Store.record n k s = None
           ∧ Store.record n k s' = Some (Store.untagged a).
Proof.
  intros Hload.
  destruct (validateSerializedItem (VObj a)) as [[]|e] eqn:Hv;
    [|rewrite (load_invalid dirname _ s e) in Hload; congruence].
  split; [done|].
  destruct (load_valid_cases dirname a s Hv)
    as (k & n & Hk & _ & Hn & _ & [[Hfree Hl]|[_ Hl]]);
    rewrite Hl in Hload; [|congruence].
  injection Hload as <-. exists k, n. split_and!; [done..| |].
  - unfold Store.record.
    destruct (JSMap.get n (Store._collections s)) as [c|] eqn:Hc; [|done].
    simpl. by rewrite (collections_present dirname n s c) in Hfree.
  - unfold Store.record. simpl. rewrite JSMap_get_set_eq. simpl.
    unfold Collection.get. simpl. rewrite JSMap_get_app, Hfree. simpl.
    by rewrite decide_True.
Qed.

Lemma forEach_record_kept (dirname : string → string) (data : list JSValue)
    (s : Store.t) (n : string) (k : Index) (r : Obj) :
  Store.record n k s = Some r →
  Store.record n k (forEach (Store.load dirname) data s).1 = Some r.
Proof.
  revert s. induction data as [|x data IH]; intros s Hs; simpl; [done|].
  pose proof (load_record_kept dirname x s n k r Hs) as Hx.
  destruct (Store.load dirname x s) as [s1 [[]|e]]; simpl in *; [|done].
  by apply IH.
Qed.

Lemma forEach_records (dirname : string → string) (data : list JSValue)
    (s s' : Store.t) (x : JSValue) :
  forEach (Store.load dirname) data s = (s', Ok tt) →
  x ∈ data →
  ∃ a k n, x = VObj a
           ∧ validateSerializedItem x = Ok tt
           ∧ as_index (getProp a "_id") = Some k
           ∧ getProp a "_collection" = VStr n
           ∧ Store.record n k s' = Some (Store.untagged a).
Proof.
  revert s. induction data as [|y data IH]; intros s Hloop Hx;
    [by apply elem_of_nil in Hx|].
  simpl in Hloop.
  destruct (Store.load dirname y s) as [s1 [[]|e]] eqn:Hy; [|congruence].
  apply elem_of_cons in Hx as [->|Hx]; [|by apply (IH s1)].
  assert (∃ a, y = VObj a) as [a ->].
  { destruct (validateSerializedItem y) as [[]|e] eqn:Hv;
      [by apply validateSerializedItem_is_obj|].
    rewrite (load_invalid dirname y s e) in Hy by done. congruence. }
  destruct (load_record_filed dirname a s s1 Hy)
    as (Hv & k & n & Hk & Hn & _ & Hrec).
  exists a, k, n. split_and!; [done..|].
  pose proof (forEach_record_kept dirname data s1 n k _ Hrec) as Hkept.
  by rewrite Hloop in Hkept.
Qed.

(** X9. Every record of the array is in the store that is built: when
    [storeFromObjects] answers a store, each element of the array is a
    valid tagged record, and [get] on the collection it names answers,
    under its [_id], the record without its [_collection] tag. *)
Theorem X9_built_records_retrievable (dirname : string → string)
    (data : list JSValue) (storePath : string) (w w' : Fs.World)
    (store : Store.t) (x : JSValue) :
  storeFromObjects dirname (VArr data) storePath w = (w', Ok store) →
  x ∈ data →
  ∃ a k n, x = VObj a
           ∧ validateSerializedItem x = Ok tt
           ∧ as_index (getProp a "_id") = Some k
           ∧ getProp a "_collection" = VStr n
           ∧ Store.record n k store
             = Some (<["_id" := getProp a "_id"]>
                       (delete "_id" (delete "_collection" a))).
Proof.
  unfold storeFromObjects. intros Hbuild Hx.
  destruct (Store.new dirname storePath w) as [w1 [s0|e]]; [|congruence].
  destruct (forEach (Store.load dirname) data s0) as [s1 [[]|e]] eqn:Hloop;
    [|congruence].
  injection Hbuild as <- <-.
  destruct (forEach_records dirname data s0 s1 x Hloop Hx)
    as (a & k & n & -> & Hv & Hk & Hn & Hrec).
  exists a, k, n. split_and!; [done..|]. rewrite Hrec. f_equal.
  unfold Store.untagged, spread_over. apply map_eq. intros j.
  rewrite lookup_union, lookup_insert.
  destruct (decide ("_id" = j)) as [<-|Hne].
  - by rewrite lookup_delete_eq, lookup_singleton_eq.
  - rewrite lookup_singleton_ne by done.
    by destruct (delete "_id" (delete "_collection" a) !! j).
Qed.

Lemma X9_built_records_retrievable_witness :
  let x : Obj :=
    {[ "_id" := VNum (Int 1); "_collection" := VStr "users";
       "name" := VStr "a" ]} in
  ∃ a k n, VObj x = VObj a
           ∧ validateSerializedItem (VObj x) = Ok tt
           ∧ as_index (getProp a "_id") = Some k
           ∧ getProp a "_collection" = VStr n
           ∧ Store.record n k (Store.at_path "" sample_store)
             = Some (<["_id" := getProp a "_id"]>
                       (delete "_id" (delete "_collection" a))).
Proof.
  intros x.
  refine (X9_built_records_retrievable dirname_posix [VObj x] ""
            sample_world sample_world (Store.at_path "" sample_store)
            (VObj x) eq_refl _).
  apply list_elem_of_here.
Defined.

Lemma JSMap_set_sum {K V : Type} `{EqDecision K} (f : V → nat) (k : K)
    (v v' : V) (m : JSMap.t K V) :
  JSMap.get k m = Some v →
  sum_list (f <$> (JSMap.set k v' m).*2) + f v
  = sum_list (f <$> m.*2) + f v'.
Proof.
  induction m as [|[k0 v0] m IH]; simpl; [done|].
  destruct (decide (k = k0)) as [->|Hne]; simpl.
  - intros [= ->]. lia.
  - intros Hget. specialize (IH Hget). unfold fmap in IH. lia.
Qed.

Lemma collections_total (dirname : string → string) (n : string)
    (s : Store.t) :
  Store.total (Store.collections dirname n s).1 = Store.total s.
Proof.
  unfold Store.collections, Store.total, JSMap.values.
  destruct (JSMap.get n (Store._collections s)) as [c|] eqn:Hget; simpl;
    [done|].
  rewrite JSMap_set_fresh by done.
  rewrite !fmap_app, sum_list_app_counts. simpl.
  unfold Collection.count, JSMap.size. simpl. lia.
Qed.

Lemma load_total (dirname : string → string) (x : JSValue) (s s' : Store.t) :
  Store.load dirname x s = (s', Ok tt) → Store.total s' = S (Store.total s).
Proof.
  intros Hload.
  destruct (validateSerializedItem x) as [[]|e] eqn:Hv;
    [|rewrite (load_invalid dirname x s e) in Hload; congruence].
  destruct (validateSerializedItem_is_obj _ Hv) as [a ->].
  destruct (load_valid_cases dirname a s Hv)
    as (k & n & _ & _ & _ & _ & [[_ Hl]|[_ Hl]]);
    rewrite Hl in Hload; [|congruence].
  injection Hload as <-.
  pose proof (JSMap_set_sum Collection.count n
                (Store.collections dirname n s).2
                (filed k (Store.untagged a) (Store.collections dirname n s).2)
                _ (collections_answer dirname n s)) as Hsum.
  pose proof (collections_total dirname n s) as Htot.
  assert (Collection.count
            (filed k (Store.untagged a) (Store.collections dirname n s).2)
          = S (Collection.count (Store.collections dirname n s).2)) as Hc.
  { unfold Collection.count, JSMap.size, filed. simpl.
    rewrite length_app. simpl. lia. }
  unfold Store.total, Store.mutated, JSMap.values in *. simpl.
  rewrite Hc in Hsum. lia.
Qed.

Lemma forEach_total (dirname : string → string) (data : list JSValue)
    (s s' : Store.t) :
  forEach (Store.load dirname) data s = (s', Ok tt) →
  Store.total s' = Store.total s + length data.
Proof.
  revert s. induction data as [|x data IH]; intros s; simpl.
  - intros [= <-]. lia.
  - destruct (Store.load dirname x s) as [s1 [[]|e]] eqn:Hx; [|congruence].
    intros Hloop. rewrite (IH s1 Hloop), (load_total dirname x s s1 Hx). lia.
Qed.

(** X10. A store built without a path holds as many records as the array
    has elements, and the build makes no call to the file system. *)
Theorem X10_built_total (dirname : string → string) (data : list JSValue)
    (w w' : Fs.World) (store : Store.t) :
  storeFromObjects dirname (VArr data) "" w = (w', Ok store) →
  Store.total store = length data ∧ w' = w.
Proof.
  unfold storeFromObjects. simpl.
  destruct (forEach (Store.load dirname) data _) as [s1 [[]|e]] eqn:Hloop;
    [|congruence].
  intros [= <- <-]. split; [|done].
  by rewrite (forEach_total dirname data _ s1 Hloop).
Qed.

Lemma X10_built_total_witness :
  Store.total (Store.at_path "" sample_store) = 1 ∧ sample_world = sample_world.
Proof.
  exact (X10_built_total dirname_posix
           [VObj {[ "_id" := VNum (Int 1); "_collection" := VStr "users";
                    "name" := VStr "a" ]}]
           sample_world sample_world (Store.at_path "" sample_store) eq_refl).
Defined.

(** ** [storeFromFile] *)

Lemma forEach_load_again (dirname : string → string) (x : JSValue)
    (rest : list JSValue) (s s0 : Store.t) :
  forEach (Store.load dirname) (x :: rest) s = (s0, Ok tt) →
  (forEach (Store.load dirname) (x :: rest) s0).2 = Throw InsertionError.
Proof.
  intros Hloop.
  destruct (forEach_records dirname (x :: rest) s s0 x Hloop
              (list_elem_of_here x rest))
    as (a & k & n & -> & Hv & Hk & Hn & Hrec).
  assert (Store.has_record n k s0) as Hheld.
  { unfold Store.record, Store.has_record, Collection.get in *.
    destruct (JSMap.get n (Store._collections s0)) as [c|]; [|done].
    exists c. split; [done|]. by eexists. }
  pose proof (load_duplicate dirname a s0 n k Hv Hk Hn Hheld) as Hdup.
  simpl. destruct (Store.load dirname (VObj a) s0) as [s1 r].
  simpl in Hdup. by rewrite Hdup.
Qed.

(** X11. [storeFromFile] answers no store for a file that holds an array
    with a record in it: the construction of the store reads the file
    and loads its records, and the records that [storeFromFile] read
    itself are inserted after them, so the first one is refused with
    [InsertionError], unless the construction has failed before. *)
Theorem X11_storeFromFile_refused (dirname : string → string)
    (storePath : string) (w : Fs.World) (j : JSON) (x : JSValue)
    (rest : list JSValue) :
  storePath ≠ "" →
  dirname storePath ∈ Fs.dirs w →
  Fs.files w !! storePath = Some (JsonText j) →
  JSON_value j = VArr (x :: rest) →
  (storeFromFile dirname storePath w).2 = Throw InsertionError
  ∨ ∃ e, (storeFromFile dirname storePath w).2 = Throw e
         ∧ (Store.new dirname storePath w).2 = Throw e.
Proof.
  intros Hpath Hd Hfile Hj.
  remember (x :: rest) as data eqn:Hdata.
  unfold storeFromFile, Fs.readFileSync. rewrite Hfile. simpl. rewrite Hj.
  unfold storeFromObjects.
  rewrite (new_over_file dirname storePath w (JsonText j)) by done.
  rewrite (new_over_file dirname storePath
             (Fs.called (Fs.Read storePath) w) (JsonText j)) by done.
  simpl. rewrite Hj.
  destruct (forEach (Store.load dirname) data _) as [s0 [[]|e]] eqn:Hloop.
  - left. subst data.
    pose proof (forEach_load_again dirname x rest _ s0 Hloop) as Hagain.
    destruct (forEach (Store.load dirname) (x :: rest) s0) as [s1 r].
    simpl in Hagain. by rewrite Hagain.
  - right. by exists e.
Qed.

Lemma X11_storeFromFile_refused_witness :
  let saved :=
    (Store.persist dirname_posix (Store.as_this sample_store) sample_world).1 in
  (storeFromFile dirname_posix "db/data.json" saved).2 = Throw InsertionError
  ∨ ∃ e, (storeFromFile dirname_posix "db/data.json" saved).2 = Throw e
         ∧ (Store.new dirname_posix "db/data.json" saved).2 = Throw e.
Proof.
  intros saved.
  refine (X11_storeFromFile_refused dirname_posix "db/data.json" saved
            (Store.serialize sample_store)
            (VObj {[ "_id" := VNum (Int 1); "_collection" := VStr "users";
                     "name" := VStr "a" ]}) [] _ _ eq_refl eq_refl).
  - by intros [=].
  - apply (bool_decide_unpack _). reflexivity.
Defined.

(** ** The state of a store that is built *)

Lemma load_keeps_valid (dirname : string → string) (x : JSValue)
    (s : Store.t) :
  Store.valid s = true → Store.hooked dirname s →
  Store.valid (Store.load dirname x s).1 = true
  ∧ Store.hooked dirname (Store.load dirname x s).1.
Proof.
  intros Hvalid Hhook.
  destruct (validateSerializedItem x) as [[]|e] eqn:Hv;
    [|by rewrite (load_invalid dirname x s e)].
  destruct (validateSerializedItem_is_obj _ Hv) as [a ->].
  destruct (load_valid dirname a s Hv) as (k & n & _ & _ & _ & _ & ->).
  simpl.
  destruct (Store_insertion_valid dirname n
              (ViaInsertNoSave (Store.untagged a)) s
              {| Fs.dirs := ∅; Fs.files := ∅; Fs.calls := [] |}
              Hvalid Hhook) as (_ & _ & Hv2 & Hh2).
  simpl in Hv2, Hh2.
  by destruct (Collection._insertNoSave (Store.untagged a)
                 (Store.collections dirname n s).2).
Qed.

Lemma forEach_keeps_valid (dirname : string → string) (data : list JSValue)
    (s : Store.t) :
  Store.valid s = true → Store.hooked dirname s →
  Store.valid (forEach (Store.load dirname) data s).1 = true
  ∧ Store.hooked dirname (forEach (Store.load dirname) data s).1.
Proof.
  revert s. induction data as [|x data IH]; intros s Hvalid Hhook; simpl;
    [done|].
  destruct (load_keeps_valid dirname x s Hvalid Hhook) as [Hv1 Hh1].
  destruct (Store.load dirname x s) as [s1 [[]|e]]; simpl in *; [|done].
  by apply IH.
Qed.

Lemma new_valid (dirname : string → string) (p : string) (w w1 : Fs.World)
    (s : Store.t) :
  Store.new dirname p w = (w1, Ok s) →
  Store.valid s = true ∧ Store.hooked dirname s ∧ Store.fPath s = p.
Proof.
  unfold Store.new, Store.initStore. simpl.
  assert (Store.valid {| Store.fPath := p; Store._collections := [] |} = true
          ∧ Store.hooked dirname
              {| Store.fPath := p; Store._collections := [] |})
    as [He1 He2] by (split; [done|constructor]).
  destruct (String.eqb p ""); [by intros [= <- <-]|].
  destruct (bool_decide _ || bool_decide _); simpl; [|by intros [= <- <-]].
  destruct (Fs.files w !! p) as [text|]; [|done].
  destruct (JSON_parse text) as [[| |b|n|str|data|m]|e]; try done.
  unfold JSMap.empty.
  destruct (forEach_keeps_valid dirname data _ He1 He2) as [Hv Hh].
  pose proof (forEach_load_at_path dirname p data
                {| Store.fPath := ""; Store._collections := [] |}) as Hp.
  unfold Store.at_path in Hp at 1. simpl in Hp.
  destruct (forEach (Store.load dirname) data
              {| Store.fPath := p; Store._collections := [] |})
    as [s1 [[]|e]]; [|done].
  intros [= <- <-]. simpl in *. split_and!; [done..|].
  by injection Hp as -> _.
Qed.

(** X12. Every store that [storeFromObjects] answers is in order: the
    names of its collections are distinct, every collection is
    registered under its own name and has the store's [persist] as its
    hook, and in every collection the identifiers are distinct and every
    record is filed under its own [_id]. *)
Theorem X12_built_store_valid (dirname : string → string)
    (storedData : JSValue) (storePath : string) (w w' : Fs.World)
    (store : Store.t) :
  storeFromObjects dirname storedData storePath w = (w', Ok store) →
  Store.valid store = true
  ∧ Store.hooked dirname store
  ∧ Store.fPath store = storePath.
Proof.
  unfold storeFromObjects.
  destruct (Store.new dirname storePath w) as [w1 [s0|e]] eqn:Hnew; [|done].
  destruct (new_valid dirname storePath w w1 s0 Hnew) as (Hv & Hh & Hp).
  destruct storedData as [| |b|n|str|data|m]; try done.
  destruct (forEach_keeps_valid dirname data s0 Hv Hh) as [Hv1 Hh1].
  pose proof (forEach_load_at_path dirname storePath data s0) as Hpath.
  destruct (forEach (Store.load dirname) data s0) as [s1 [[]|e]] eqn:Hloop;
    [|done].
  intros [= <- <-]. split_and!; [done..|].
  assert (Store.at_path storePath s0 = s0) as Hs0
    by (destruct s0; simpl in Hp; by subst).
  rewrite Hs0, Hloop in Hpath. simpl in Hpath. by injection Hpath as ->.
Qed.

Lemma X12_built_store_valid_witness :
  Store.valid (Store.at_path "" sample_store) = true
  ∧ Store.hooked dirname_posix (Store.at_path "" sample_store)
  ∧ Store.fPath (Store.at_path "" sample_store) = "".
Proof.
  exact (X12_built_store_valid dirname_posix
           (VArr [VObj {[ "_id" := VNum (Int 1); "_collection" := VStr "users";
                          "name" := VStr "a" ]}])
           "" sample_world sample_world (Store.at_path "" sample_store)
           eq_refl).
Defined.

(** ** A store that was loaded can be saved *)













(** ** A store constructed over a file *)

(** X15. Every record of the file is in the store that is constructed:
    when the construction over a file that holds an array completes,
    each element of the array is a valid tagged record, [get] on the
    collection it names answers under its [_id] the record without its
    tag, and the store holds as many records as the array has
    elements. *)
Theorem X15_constructed_records (dirname : string → string)
    (fPath : string) (w w1 : Fs.World) (j : JSON) (data : list JSValue)
    (s : Store.t) (x : JSValue) :
  fPath ≠ "" →
  dirname fPath ∈ Fs.dirs w →
  Fs.files w !! fPath = Some (JsonText j) →
  JSON_value j = VArr data →
  Store.new dirname fPath w = (w1, Ok s) →
  Store.total s = length data
  ∧ (x ∈ data →
     ∃ a k n, x = VObj a
              ∧ validateSerializedItem x = Ok tt
              ∧ as_index (getProp a "_id") = Some k
              ∧ getProp a "_collection" = VStr n
              ∧ Store.record n k s = Some (Store.untagged a)).
Proof.
  intros Hpath Hd Hfile Hj.
  rewrite (new_over_file dirname fPath w (JsonText j)) by done.
  simpl. rewrite Hj.
  destruct (forEach (Store.load dirname) data _) as [s1 [[]|e]] eqn:Hloop;
    [|done].
  intros [= <- <-]. split.
  - by rewrite (forEach_total dirname data _ s1 Hloop).
  - intros Hx. by apply (forEach_records dirname data _ s1 x Hloop).
Qed.

Lemma X15_constructed_records_witness :
  let saved :=
    (Store.persist dirname_posix (Store.as_this sample_store) sample_world).1 in
  let x : Obj :=
    {[ "_id" := VNum (Int 1); "_collection" := VStr "users";
       "name" := VStr "a" ]} in
  Store.total sample_store = 1
  ∧ (VObj x ∈ [VObj x] →
     ∃ a k n, VObj x = VObj a
              ∧ validateSerializedItem (VObj x) = Ok tt
              ∧ as_index (getProp a "_id") = Some k
              ∧ getProp a "_collection" = VStr n
              ∧ Store.record n k sample_store = Some (Store.untagged a)).
Proof.
  intros saved x.
  refine (X15_constructed_records dirname_posix "db/data.json" saved _
            (Store.serialize sample_store) [VObj x] sample_store (VObj x)
            _ _ eq_refl eq_refl eq_refl).
  - by intros [=].
  - apply (bool_decide_unpack _). reflexivity.
Defined.

(** ** Insertion through the store *)

(** X16. A record inserted through the collection that [collections]
    answers is a record of the store: after an insertion that completes,
    the collection of that name holds the record under its identifier,
    the store holds one record more, the names of the collections are
    those after the call of [collections], and the other collections
    are as before. *)
Theorem X16_insertion_through_store (dirname : string → string)
    (name : string) (i : Insertion) (s : Store.t) (w w' : Fs.World)
    (c' : Collection.t) :
  let s1 := (Store.collections dirname name s).1 in
  let c := (Store.collections dirname name s).2 in
  perform i c w = (c', w', Ok tt) →
  let s2 := Store.mutated name c' s1 in
  (∃ k, as_index (getProp (record_of i) "_id") = Some k
        ∧ Store.record name k s = None
        ∧ Store.record name k s2 = Some (record_of i))
  ∧ Store.total s2 = S (Store.total s)
  ∧ Store.collNames s2 = Store.collNames s1
  ∧ ∀ other, other ≠ name →
      JSMap.get other (Store._collections s2)
      = JSMap.get other (Store._collections s).
Proof.
  intros s1 c Hp s2.
  destruct (perform_cases i c w)
    as [(k & Hk & Hget & w0 & r & Hp' & _)|[Hp' _]]; [|congruence].
  rewrite Hp' in Hp. injection Hp as <- _ _.
  pose proof (collections_answer dirname name s) as Hans. fold s1 c in Hans.
  split_and!.
  - exists k. split_and!; [done| |].
    + unfold Store.record.
      destruct (JSMap.get name (Store._collections s)) as [c0|] eqn:Hc0;
        [|done].
      simpl. subst c.
      by rewrite (collections_present dirname name s c0) in Hget.
    + unfold Store.record. subst s2. simpl. rewrite JSMap_get_set_eq. simpl.
      unfold Collection.get. simpl. rewrite JSMap_get_app, Hget. simpl.
      by rewrite decide_True.
  - pose proof (JSMap_set_sum Collection.count name c
                  (filed k (record_of i) c) _ Hans) as Hsum.
    pose proof (collections_total dirname name s) as Htot. fold s1 in Htot.
    assert (Collection.count (filed k (record_of i) c)
            = S (Collection.count c)) as Hc.
    { unfold Collection.count, JSMap.size, filed. simpl.
      rewrite length_app. simpl. lia. }
    unfold Store.total, JSMap.values in *. subst s2. simpl.
    rewrite Hc in Hsum. lia.
  - subst s2. unfold Store.collNames, JSMap.keys. simpl. clear -Hans.
    revert Hans. generalize (Store._collections s1). intros l.
    induction l as [|[n0 c0] l IH]; simpl; [done|].
    destruct (decide (name = n0)) as [->|Hne]; simpl; [done|].
    intros Hl. f_equal. by apply IH.
  - intros other Hne. subst s2. simpl.
    rewrite JSMap_get_set_ne by done. subst s1.
    by apply collections_get_ne.
Qed.

Lemma X16_insertion_through_store_witness :
  let empty := {| Store.fPath := "db/data.json"; Store._collections := [] |} in
  (∃ k, as_index (getProp {[ "_id" := VNum (Int 1); "name" := VStr "a" ]} "_id")
        = Some k
        ∧ Store.record "users" k empty = None
        ∧ Store.record "users" k sample_store
          = Some {[ "_id" := VNum (Int 1); "name" := VStr "a" ]})
  ∧ Store.total sample_store = 1
  ∧ Store.collNames sample_store = ["users"]
  ∧ ∀ other, other ≠ "users" →
      JSMap.get other (Store._collections sample_store)
      = JSMap.get other (Store._collections empty).
Proof.
  intros empty.
  exact (X16_insertion_through_store dirname_posix "users"
           (ViaInsertSync {[ "name" := VStr "a" ]} (VNum (Int 1)) "uuid")
           empty sample_world sample_world sample_users eq_refl).
Defined.

(** ** The earlier prototype *)

